(** * Sub-character tokenizers of med_char-level_RAG

    A shallow embedding of the tokenizer classes of the repository

    - [customs_tokenizers/pinyin_tokenizer.py]  (phonetic: initial, final, tone),
    - [customs_tokenizers/stroke_tokenizer.py]  (graphemic: stroke symbols),
    - [zh2text.py]                              (the stand-alone stroke tokenizer),

    and the properties their specification states about them.

    Python values are modelled as follows.  A [str] is the list of its Unicode
    code points; a [dict] is a finite map ([gmap], which forgets the insertion
    order); a Python [int] that can be negative (a length limit) is a [Z], an
    id or a mask entry is a [nat]; an exception is a constructor of [exn]
    carried by the [result] monad; what a constructor prints is a list of
    strings beside its result. *)

From Stdlib Require Import ZArith NArith Ascii String.
From stdpp Require Import base option list sorting gmap.

Local Open Scope Z_scope.
Local Open Scope nat_scope.

(** ** Python strings *)

Abbreviation char := N (only parsing).
Abbreviation str := (list N) (only parsing).

(** An ASCII literal as a Python string. *)
Definition py (s : string) : str := map N_of_ascii (list_ascii_of_string s).

(** [str.isspace] of a one-character string: the code points CPython's
    [_PyUnicode_IsWhitespace] accepts.  [str.strip()] and [str.split()]
    without arguments use the same table. *)
Definition isspace (c : char) : bool :=
  ((9 <=? c) && (c <=? 13) || (28 <=? c) && (c <=? 32) || (c =? 133) || (c =? 160)
   || (c =? 5760) || (8192 <=? c) && (c <=? 8202) || (c =? 8232) || (c =? 8233)
   || (c =? 8239) || (c =? 8287) || (c =? 12288))%N.

Definition ascii_digit (c : char) : bool := ((48 <=? c) && (c <=? 57))%N.

Fixpoint lstrip (s : str) : str :=
  match s with
  | c :: s' => if isspace c then lstrip s' else s
  | [] => []
  end.

Definition rstrip (s : str) : str := reverse (lstrip (reverse s)).

(** [s.strip()] *)
Definition strip (s : str) : str := rstrip (lstrip s).

(** [s.split()]: the maximal runs of non-whitespace characters.  [cur] is the
    field being read. *)
Fixpoint split_go (cur s : str) : list str :=
  match s with
  | [] => match cur with [] => [] | _ => [cur] end
  | c :: s' =>
      if isspace c
      then match cur with [] => split_go [] s' | _ => cur :: split_go [] s' end
      else split_go (cur ++ [c]) s'
  end.

Definition split (s : str) : list str := split_go [] s.

(** [s.startswith(p)] *)
Fixpoint startswith (s p : str) : bool :=
  match p, s with
  | [], _ => true
  | c :: p', d :: s' => (c =? d)%N && startswith s' p'
  | _ :: _, [] => false
  end.

(** [l[:n]] for an integer [n] of either sign. *)
Definition slice_to {A} (n : Z) (l : list A) : list A :=
  if (0 <=? n)%Z then take (Z.to_nat n) l
  else take (length l - Z.to_nat (- n)) l.

(** [l[n:]] for a non-negative index. *)
Definition slice_from {A} (n : nat) (l : list A) : list A := drop n l.

(** [[x] * n] for an integer [n]: empty when [n] is not positive. *)
Definition repeat_list {A} (x : A) (n : Z) : list A := replicate (Z.to_nat n) x.

(** [enumerate(l)] *)
Definition enumerate {A} (l : list A) : list (nat * A) := imap (λ i x, (i, x)) l.

(** ** Exceptions *)

Inductive exn :=
  | FileNotFoundError (path : str)
  | KeyError (key : str)
  | ValueError
  | TypeError.

Inductive result (A : Type) :=
  | Ok (a : A)
  | Raise (e : exn).
Arguments Ok {A} a.
Arguments Raise {A} e.

#[global] Instance result_ret : MRet result := λ A a, Ok a.
#[global] Instance result_bind : MBind result := λ A B f m,
  match m with Ok a => f a | Raise e => Raise e end.

(** [mapM] specialised to [result]: a list comprehension whose body can raise. *)
Fixpoint for_each {A B} (f : A → result B) (l : list A) : result (list B) :=
  match l with
  | [] => Ok []
  | x :: l' => y ← f x; ys ← for_each f l'; mret (y :: ys)
  end.

(** ** Dictionaries *)

(** [d[k]] *)
Definition getitem {V} (d : gmap (list N) V) (k : str) : result V :=
  match d !! k with Some v => Ok v | None => Raise (KeyError k) end.

(** [k in d] *)
Definition contains {K V} `{Countable K} (d : gmap K V) (k : K) : bool :=
  match d !! k with Some _ => true | None => false end.

(** [{k: v for (k, v) in kvs}]: a later pair overwrites an earlier one. *)
Definition dict_of {K V} `{Countable K} (kvs : list (K * V)) : gmap K V :=
  foldl (λ d kv, <[kv.1 := kv.2]> d) ∅ kvs.

(** [{v: k for k, v in d.items()}].  The order of the items matters only
    when two keys have one value, which no dictionary built from [enumerate]
    has. *)
Definition invert {K V} `{Countable K} `{Countable V} (d : gmap K V) : gmap V K :=
  dict_of ((λ kv, (kv.2, kv.1)) <$> map_to_list d).

(** ** Special tokens (the same four in the three classes) *)

Definition pad_token : str := py "[PAD]".
Definition unk_token : str := py "[UNK]".
Definition cls_token : str := py "[CLS]".
Definition sep_token : str := py "[SEP]".
Definition special_tokens : list str := [pad_token; unk_token; cls_token; sep_token].

(** A torch tensor of integers, of one or two dimensions. *)
Inductive tensor :=
  | T1 (v : list nat)
  | T2 (rows : list (list nat)).

Record Encoding := { input_ids : tensor; attention_mask : tensor }.

(** [max_length or self.max_length]: [None] and [0] are falsy. *)
Definition or_default (max_length : option Z) (self_max_length : Z) : Z :=
  match max_length with
  | Some n => if (n =? 0)%Z then self_max_length else n
  | None => self_max_length
  end.

(** ** pinyin_tokenizer.py *)

Module Pinyin.

Record PinyinTokenizer := {
  max_length : Z;
  token2id : gmap (list N) nat;
  id2token : gmap nat (list N);
  pad_token_id : nat
}.

Definition initials : list str := py <$>
  ["b"; "p"; "m"; "f"; "d"; "t"; "n"; "l";
   "g"; "k"; "h"; "j"; "q"; "x";
   "zh"; "ch"; "sh"; "r"; "z"; "c"; "s"; "y"; "w"]%string.

Definition finals : list str := py <$>
  ["a"; "o"; "e"; "i"; "u"; "v"; "ai"; "ei"; "ui"; "ao"; "ou"; "iu";
   "ie"; "ve"; "an"; "en"; "in"; "un"; "vn"; "ang"; "eng"; "ing"; "ong"]%string.

Definition tones : list str := py <$> ["1"; "2"; "3"; "4"; "5"]%string.

Definition vocab : list str := special_tokens ++ initials ++ finals ++ tones.

(** [{t: i for i, t in enumerate(vocab)}] *)
Definition build_token2id : gmap (list N) nat :=
  dict_of ((λ it, (it.2, it.1)) <$> enumerate vocab).

(** [_build_vocab]: [token2id] and [id2token]. *)
Definition _build_vocab : gmap (list N) nat * gmap nat (list N) :=
  (build_token2id, invert build_token2id).

(** [__init__] *)
Definition __init__ (max_length : Z) : result PinyinTokenizer :=
  let '(t2i, i2t) := _build_vocab in
  pad ← getitem t2i pad_token;
  mret {| max_length := max_length; token2id := t2i; id2token := i2t;
          pad_token_id := pad |}.

(** The property [vocab_size]. *)
Definition vocab_size (self : PinyinTokenizer) : nat := size (token2id self).

Section Split.
(** [str.isdigit] outside ASCII: the characters of Unicode numeric type
    Digit or Decimal, a table of the interpreter. *)
Variable unicode_digit : char → bool.

Definition isdigit (c : char) : bool := ascii_digit c || unicode_digit c.

(** [tone = p[-1] if p and p[-1].isdigit() else '5'] *)
Definition tone_of (p : str) : str :=
  match last p with
  | Some c => if isdigit c then [c] else py "5"
  | None => py "5"
  end.

(** [p_core = p[:-1] if tone != '5' else p] *)
Definition core_of (p : str) : str :=
  if bool_decide (tone_of p ≠ py "5") then slice_to (-1) p else p.

(** The loop [for i in range(len(p_core), 0, -1)], entered at [i]. *)
Fixpoint split_from (t2i : gmap (list N) nat) (p_core tone : str) (i : nat) : list str :=
  match i with
  | 0 => [unk_token; unk_token; tone]
  | S j =>
      if contains t2i (slice_to (Z.of_nat i) p_core)
      then [slice_to (Z.of_nat i) p_core; slice_from i p_core; tone]
      else split_from t2i p_core tone j
  end.

Definition split_pinyin (self : PinyinTokenizer) (p : str) : list str :=
  let tone := tone_of p in
  let p_core := core_of p in
  split_from (token2id self) p_core tone (length p_core).

(** [self.token2id.get(t, self.token2id[self.unk_token])] *)
Definition token_id (self : PinyinTokenizer) (t : str) : result nat :=
  unk ← getitem (token2id self) unk_token;
  mret (default unk (token2id self !! t)).

(** The loop of [encode] over the syllable entries, [ids] being the list
    built so far. *)
Fixpoint encode_loop (self : PinyinTokenizer) (syllables : list (list str))
    (ids : list nat) : result (list nat) :=
  match syllables with
  | [] => Ok ids
  | syl :: rest =>
      match syl with
      | [] => encode_loop self rest ids
      | s0 :: _ =>
          match strip s0 with
          | [] => encode_loop self rest ids
          | _ =>
              new ← for_each (token_id self) (split_pinyin self s0);
              encode_loop self rest (ids ++ new)
          end
      end
  end.

(** [encode] after the call of [pypinyin.pinyin]. *)
Definition encode_syllables (self : PinyinTokenizer) (syllables : list (list str))
    : result (list nat) :=
  ids ← encode_loop self syllables [];
  match ids with
  | [] => unk ← getitem (token2id self) unk_token; mret [unk]
  | _ => mret ids
  end.

(** [pypinyin.pinyin(text, style=Style.TONE3, strict=False, errors='default')],
    the external romanization utility. *)
Variable pinyin : str → list (list str).

Definition encode (self : PinyinTokenizer) (text : str) : result (list nat) :=
  encode_syllables self (pinyin text).

(** [[cls] + ids + [sep]] *)
Definition wrap (self : PinyinTokenizer) (ids : list nat) : result (list nat) :=
  cls ← getitem (token2id self) cls_token;
  sep ← getitem (token2id self) sep_token;
  mret ([cls] ++ ids ++ [sep]).

(** [__call__]; [return_tensors] is not read by the method. *)
Definition __call__ (self : PinyinTokenizer) (text : str) (max_length_arg : option Z)
    (padding : str) (truncation : bool) : result Encoding :=
  let max_len := or_default max_length_arg (max_length self) in
  ids ← encode self text;
  ids ← wrap self ids;
  let ids := if truncation then slice_to max_len ids else ids in
  let attention_mask := repeat_list 1 (Z.of_nat (length ids)) in
  if bool_decide (padding = py "max_length") && (Z.of_nat (length ids) <? max_len)%Z
  then
    let pad_len := (max_len - Z.of_nat (length ids))%Z in
    pad ← getitem (token2id self) pad_token;
    mret {| input_ids := T2 [ids ++ repeat_list pad pad_len];
            attention_mask := T2 [attention_mask ++ repeat_list 0 pad_len] |}
  else
    mret {| input_ids := T2 [ids]; attention_mask := T2 [attention_mask] |}.

End Split.

End Pinyin.

(** ** The decomposition-table file *)

(** The files that exist, by path, with their decoded text. *)
Abbreviation filesystem := (gmap (list N) (list N)) (only parsing).

(** Text-mode reading translates "\r\n" and a lone "\r" to "\n". *)
Fixpoint universal_newlines (s : str) : str :=
  match s with
  | [] => []
  | c :: s' =>
      if (c =? 13)%N
      then match s' with
           | d :: s'' => if (d =? 10)%N then 10%N :: universal_newlines s''
                         else 10%N :: universal_newlines s'
           | [] => [10%N]
           end
      else c :: universal_newlines s'
  end.

(** The lines a file object yields, each with its newline, [cur] being the
    line read so far. *)
Fixpoint lines_go (cur s : str) : list str :=
  match s with
  | [] => match cur with [] => [] | _ => [cur] end
  | c :: s' =>
      if (c =? 10)%N then (cur ++ [c]) :: lines_go [] s'
      else lines_go (cur ++ [c]) s'
  end.

(** [for line in f] *)
Definition readlines (content : str) : list str := lines_go [] (universal_newlines content).

(** [open(filepath, 'r', encoding='utf-8')] followed by the iteration. *)
Definition open_lines (fs : filesystem) (filepath : str) : result (list str) :=
  match fs !! filepath with
  | Some content => Ok (readlines content)
  | None => Raise (FileNotFoundError filepath)
  end.

(** [list(s)]: the one-character strings of [s]. *)
Definition chars (s : str) : list str := (λ c, [c]) <$> s.

(** Python compares strings by code points, lexicographically. *)
Fixpoint str_leb (x y : str) : bool :=
  match x, y with
  | [], _ => true
  | _ :: _, [] => false
  | a :: x', b :: y' => (a <? b)%N || (a =? b)%N && str_leb x' y'
  end.

Definition str_le (x y : str) : Prop := str_leb x y = true.

#[global] Instance str_le_dec : RelDecision str_le.
Proof. intros x y. unfold str_le. apply _. Defined.

(** [sorted(list(strokes))] for a set of strings. *)
Definition sorted (strokes : gset (list N)) : list str :=
  merge_sort str_le (elements strokes).

(** [max(len(ids) for ids in all_ids)] *)
Definition max_len_of {A} (all_ids : list (list A)) : result nat :=
  match all_ids with
  | [] => Raise ValueError
  | _ => Ok (max_list (length <$> all_ids))
  end.

(** [torch.tensor(all_ids, dtype=torch.long)] on a list of lists whose
    entries are integers or [None]: the rows must have one length and hold
    integers only. *)
Definition torch_tensor (all_ids : list (list (option nat))) : result (list (list nat)) :=
  match all_ids with
  | [] => Ok []
  | row :: _ =>
      if forallb (λ r, length r =? length row) all_ids
      then match mapM (mapM id) all_ids with
           | Some rows => Ok rows
           | None => Raise TypeError
           end
      else Raise ValueError
  end.

(** ** customs_tokenizers/stroke_tokenizer.py *)

Module Stroke.

Record StrokeTokenizer := {
  max_length : Z;
  char2stroke : gmap (list N) (list N);
  stroke2id : gmap (list N) nat;
  id2stroke : gmap nat (list N);
  vocab_size : nat;
  pad_token_id : nat
}.

(** One iteration of the loop of [_load_zh2text]. *)
Definition load_line (mapping : gmap (list N) (list N)) (line : str) : gmap (list N) (list N) :=
  match split (strip line) with
  | p0 :: p1 :: _ => <[p0 := p1]> mapping
  | _ => mapping
  end.

(** [_load_zh2text]: what it prints and the mapping.  Only
    [FileNotFoundError] is caught. *)
Definition _load_zh2text (fs : filesystem) (filepath : str)
    : list str * result (gmap (list N) (list N)) :=
  match open_lines fs filepath with
  | Ok lines => ([], Ok (foldl load_line ∅ lines))
  | Raise (FileNotFoundError _) =>
      ([py "[Warning] file " ++ filepath ++ py " not found."], Ok ∅)
  | Raise e => ([], Raise e)
  end.

(** The set [strokes] of [_build_vocab]. *)
Definition stroke_set (c2s : gmap (list N) (list N)) : gset (list N) :=
  list_to_set ((map_to_list c2s).*2 ≫= chars).

(** [stroke2id] as [_build_vocab] builds it. *)
Definition build_stroke2id (c2s : gmap (list N) (list N)) : gmap (list N) nat :=
  let strokes := sorted (stroke_set c2s) in
  let d := dict_of ((λ it, (it.2, it.1 + 4)) <$> enumerate strokes) in
  let d := <[pad_token := 0]> d in
  let d := <[unk_token := 1]> d in
  let d := <[cls_token := 2]> d in
  <[sep_token := 3]> d.

(** [_build_vocab]: [stroke2id], [id2stroke] and [vocab_size]. *)
Definition _build_vocab (c2s : gmap (list N) (list N))
    : gmap (list N) nat * gmap nat (list N) * nat :=
  let s2i := build_stroke2id c2s in
  (s2i, invert s2i, size s2i).

(** The part of [__init__] that follows the loading of the table. *)
Definition new (max_length : Z) (c2s : gmap (list N) (list N)) : result StrokeTokenizer :=
  let '(s2i, i2s, n) := _build_vocab c2s in
  pad ← getitem s2i pad_token;
  mret {| max_length := max_length; char2stroke := c2s; stroke2id := s2i;
          id2stroke := i2s; vocab_size := n; pad_token_id := pad |}.

(** [__init__]: the tokenizer and what construction prints.  [default_path]
    is [os.path.join(os.path.dirname(__file__), "zh2letter.txt")]. *)
Definition __init__ (fs : filesystem) (default_path : str) (zh2text_file : option str)
    (max_length : Z) : list str * result StrokeTokenizer :=
  let zh2text_file := default default_path zh2text_file in
  let out1 :=
    if contains fs zh2text_file then []
    else [[91; 35686; 21578; 93; 32; 26410; 25214; 21040; 32]%N ++ zh2text_file] in
  let '(out2, c2s) := _load_zh2text fs zh2text_file in
  (out1 ++ out2, c2s ← c2s; new max_length c2s).

(** [text_to_strokes] *)
Definition text_to_strokes (self : StrokeTokenizer) (text : str) : list str :=
  foldl (λ strokes ch,
           match char2stroke self !! [ch] with
           | Some v => strokes ++ chars v
           | None => strokes ++ [unk_token]
           end) [] text.

(** [self.stroke2id.get(s, self.stroke2id[self.unk_token])] *)
Definition stroke_id (self : StrokeTokenizer) (s : str) : result nat :=
  unk ← getitem (stroke2id self) unk_token;
  mret (default unk (stroke2id self !! s)).

(** The wrapped ids of one text, before truncation; [dict.get] without a
    default yields [None] for an absent key. *)
Definition wrapped (self : StrokeTokenizer) (text : str) : result (list (option nat)) :=
  let strokes := text_to_strokes self text in
  ids ← for_each (stroke_id self) strokes;
  mret ([stroke2id self !! cls_token] ++ (Some <$> ids) ++ [stroke2id self !! sep_token]).

(** The body of the loop [for text in texts]. *)
Definition encode_one (self : StrokeTokenizer) (truncation : bool) (max_length : Z)
    (text : str) : result (list (option nat)) :=
  ids ← wrapped self text;
  mret (if truncation && (max_length <? Z.of_nat (length ids))%Z
        then slice_to max_length ids else ids).

(** The argument [texts]: one string or a list of strings. *)
Inductive texts_arg :=
  | Text (text : str)
  | Texts (texts : list str).

(** [__call__].  With [return_tensors = "pt"] the ids are returned as the
    tensor, otherwise as the padded list of lists it was built from: the rows
    are the same, and both are given as [T2]. *)
Definition __call__ (self : StrokeTokenizer) (texts : texts_arg) (return_tensors : option str)
    (padding truncation : bool) (max_length_arg : option Z) : result Encoding :=
  let texts := match texts with Text t => [t] | Texts ts => ts end in
  let max_length := default (max_length self) max_length_arg in
  all_ids ← for_each (encode_one self truncation max_length) texts;
  all_ids ←
    (if padding then
       pad_id ← getitem (stroke2id self) pad_token;
       max_len ← max_len_of all_ids;
       mret (map (λ ids, ids ++ repeat_list (Some pad_id)
                                  (Z.of_nat max_len - Z.of_nat (length ids))) all_ids)
     else mret all_ids) : result (list (list (option nat)));
  input_ids ← torch_tensor all_ids;
  pad_id ← getitem (stroke2id self) pad_token;
  let attention_mask := map (map (λ i, if i =? pad_id then 0 else 1)) input_ids in
  mret {| input_ids := T2 input_ids; attention_mask := T2 attention_mask |}.

End Stroke.

(** ** zh2text.py *)

Module ZhText.

Record StrokeTokenizer := {
  max_length : Z;
  char2stroke : gmap (list N) (list N);
  stroke2idx : gmap (list N) nat;
  idx2stroke : gmap nat (list N)
}.

(** One iteration of the loop of [_load_zh2text]. *)
Definition load_line (char2stroke : gmap (list N) (list N)) (line : str)
    : gmap (list N) (list N) :=
  let line := strip line in
  match line with
  | [] => char2stroke
  | _ =>
      if startswith line (py "#") then char2stroke
      else match split line with
           | char :: stroke :: _ => <[char := stroke]> char2stroke
           | _ => char2stroke
           end
  end.

(** [_load_zh2text]: [open] is not guarded. *)
Definition _load_zh2text (fs : filesystem) (filepath : str)
    : result (gmap (list N) (list N)) :=
  lines ← open_lines fs filepath;
  mret (foldl load_line ∅ lines).

(** The set [all_strokes] of [_build_stroke_vocab]. *)
Definition all_strokes (c2s : gmap (list N) (list N)) : gset (list N) :=
  foldl (λ acc stroke_seq, acc ∪ list_to_set (chars stroke_seq)) ∅ (map_to_list c2s).*2.

(** [vocab = self.special_tokens + all_strokes], after sorting. *)
Definition vocab (c2s : gmap (list N) (list N)) : list str :=
  special_tokens ++ sorted (all_strokes c2s).

(** [stroke2idx] and [idx2stroke] as [_build_stroke_vocab] builds them. *)
Definition build_stroke2idx (c2s : gmap (list N) (list N)) : gmap (list N) nat :=
  dict_of ((λ it, (it.2, it.1)) <$> enumerate (vocab c2s)).

Definition build_idx2stroke (c2s : gmap (list N) (list N)) : gmap nat (list N) :=
  dict_of (enumerate (vocab c2s)).

(** [_build_stroke_vocab] *)
Definition _build_stroke_vocab (c2s : gmap (list N) (list N))
    : gmap (list N) nat * gmap nat (list N) :=
  (build_stroke2idx c2s, build_idx2stroke c2s).

(** The part of [__init__] that follows the loading of the table. *)
Definition new (max_length : Z) (c2s : gmap (list N) (list N)) : StrokeTokenizer :=
  let '(s2i, i2s) := _build_stroke_vocab c2s in
  {| max_length := max_length; char2stroke := c2s; stroke2idx := s2i; idx2stroke := i2s |}.

(** [__init__]; the progress lines it prints are left out. *)
Definition __init__ (fs : filesystem) (zh2text_file : str) (max_length : Z)
    : result StrokeTokenizer :=
  c2s ← _load_zh2text fs zh2text_file;
  mret (new max_length c2s).

(** [char_to_strokes]: the stroke string, or the string ["[UNK]"]. *)
Definition char_to_strokes (self : StrokeTokenizer) (char : str) : str :=
  default unk_token (char2stroke self !! char).

(** [text_to_strokes] *)
Definition text_to_strokes (self : StrokeTokenizer) (text : str) : list str :=
  foldl (λ stroke_chars char, stroke_chars ++ chars (char_to_strokes self [char])) [] text.

(** [self.stroke2idx.get(s, self.stroke2idx[self.unk_token])] *)
Definition stroke_idx (self : StrokeTokenizer) (s : str) : result nat :=
  unk ← getitem (stroke2idx self) unk_token;
  mret (default unk (stroke2idx self !! s)).

(** Steps 1 to 3 of [__call__]: the wrapped ids. *)
Definition wrapped (self : StrokeTokenizer) (text : str) : result (list nat) :=
  let stroke_chars := text_to_strokes self text in
  ids ← for_each (stroke_idx self) stroke_chars;
  cls ← getitem (stroke2idx self) cls_token;
  sep ← getitem (stroke2idx self) sep_token;
  mret ([cls] ++ ids ++ [sep]).

(** [torch.tensor(row)], with [unsqueeze(0)] when [return_tensors == 'pt']. *)
Definition tensor_of (return_tensors : option str) (row : list nat) : tensor :=
  if bool_decide (return_tensors = Some (py "pt")) then T2 [row] else T1 row.

(** [__call__] *)
Definition __call__ (self : StrokeTokenizer) (text : str) (max_length_arg : option Z)
    (padding : str) (truncation : bool) (return_tensors : option str) : result Encoding :=
  let max_len := or_default max_length_arg (max_length self) in
  ids ← wrapped self text;
  let ids := if truncation && (max_len <? Z.of_nat (length ids))%Z
             then slice_to max_len ids else ids in
  let attention_mask := repeat_list 1 (Z.of_nat (length ids)) in
  '(ids, attention_mask) ←
    (if bool_decide (padding = py "max_length") then
       let pad_len := (max_len - Z.of_nat (length ids))%Z in
       pad ← getitem (stroke2idx self) pad_token;
       mret (ids ++ repeat_list pad pad_len, attention_mask ++ repeat_list 0 pad_len)
     else mret (ids, attention_mask)) : result (list nat * list nat);
  mret {| input_ids := tensor_of return_tensors ids;
          attention_mask := tensor_of return_tensors attention_mask |}.

(** [decode] *)
Definition decode (self : StrokeTokenizer) (ids : list nat) : list str :=
  (λ i, default unk_token (idx2stroke self !! i)) <$> ids.

(** The property [vocab_size]. *)
Definition vocab_size (self : StrokeTokenizer) : nat := size (stroke2idx self).

End ZhText.

(** ** The specification's wording of the phonetic split *)

Module PinyinSpec.

(** Tone extraction as specified: a final digit is the tone and is removed,
    otherwise the tone is "5" and nothing is removed. *)
Definition tone_and_core (isdigit : char → bool) (p : str) : str * str :=
  match last p with
  | Some c => if isdigit c then ([c], removelast p) else (py "5", p)
  | None => (py "5", p)
  end.

(** The longest prefix of [core], of length [i] at most and 1 at least, that
    is a member of [initials]. *)
Fixpoint longest_initial (initials : list str) (core : str) (i : nat) : option (str * str) :=
  match i with
  | 0 => None
  | S j =>
      if bool_decide (take i core ∈ initials) then Some (take i core, drop i core)
      else longest_initial initials core j
  end.

(** The split as specified, over a tone-stripped core. *)
Definition split_core (initials : list str) (core tone : str) : list str :=
  match longest_initial initials core (length core) with
  | Some (initial, final) => [initial; final; tone]
  | None => [unk_token; unk_token; tone]
  end.

(** An entry of the romanization utility that is empty or whitespace-only. *)
Definition skipped (syl : list str) : bool :=
  match syl with
  | [] => true
  | s0 :: _ => forallb isspace s0
  end.

Definition retained (syllables : list (list str)) : list (list str) :=
  List.filter (λ syl, negb (skipped syl)) syllables.

(** The ids a retained entry contributes: those of the initial, the final and
    the tone its first string splits into, UNK (id 1) for a symbol outside the
    vocabulary. *)
Definition entry_ids (unicode_digit : char → bool) (tk : Pinyin.PinyinTokenizer)
    (syl : list str) : list nat :=
  (λ t, default 1 (Pinyin.token2id tk !! t)) <$> Pinyin.split_pinyin unicode_digit tk (hd [] syl).

End PinyinSpec.

(** ** The specification's wording of a vocabulary *)

Module VocabSpec.

(** [lookup] and [reverse] are inverse bijections between the symbols of the
    vocabulary and the ids [0, ..., n - 1]. *)
Definition bijective_dense (lookup : gmap (list N) nat) (reverse : gmap nat (list N))
    (n : nat) : Prop :=
  (∀ s i, lookup !! s = Some i ↔ reverse !! i = Some s) ∧
  (∀ i, is_Some (reverse !! i) ↔ i < n).

(** [m] gives every symbol of the list [V] its position as id, and has no
    other key. *)
Definition numbers (V : list str) (m : gmap (list N) nat) : Prop :=
  ∀ s i, m !! s = Some i ↔ V !! i = Some s.

End VocabSpec.

(** ** The specification's wording of the graphemic decomposition *)

Module GraphemicSpec.

(** The symbols of one character: those of its table entry, in the order of
    the entry, or the single symbol UNK for a character without entry. *)
Definition char_symbols (c2s : gmap (list N) (list N)) (ch : char) : list str :=
  match c2s !! [ch] with
  | Some v => chars v
  | None => [unk_token]
  end.

(** Their ids, UNK (id 1) for a symbol outside the vocabulary. *)
Definition symbol_id (s2i : gmap (list N) nat) (s : str) : nat := default 1 (s2i !! s).

Definition char_ids (c2s : gmap (list N) (list N)) (s2i : gmap (list N) nat) (ch : char)
    : list nat :=
  symbol_id s2i <$> char_symbols c2s ch.

(** The ids of a text between the boundary markers CLS (2) and SEP (3). *)
Definition wrapped_ids (c2s : gmap (list N) (list N)) (s2i : gmap (list N) nat) (text : str)
    : list nat :=
  [2] ++ (text ≫= char_ids c2s s2i) ++ [3].

End GraphemicSpec.

(** ** The specification's wording of the encoder output *)

Module EncoderSpec.

(** The rows of a result tensor; a tensor of one dimension is one row. *)
Definition rows (t : tensor) : list (list nat) :=
  match t with
  | T1 v => [v]
  | T2 rows => rows
  end.

(** [sum(attention_mask)] *)
Definition mask_sum (t : tensor) : nat := sum_list (rows t ≫= id).

(** The output for one wrapped sequence [w] cut to [n] ids and followed by
    [k] pad ids: the mask is 1 on the ids kept and 0 on the padding. *)
Definition encoded (enc : Encoding) (w : list nat) (n k : nat) : Prop :=
  rows (input_ids enc) = [take n w ++ replicate k 0] ∧
  rows (attention_mask enc) = [replicate (length (take n w)) 1 ++ replicate k 0].

End EncoderSpec.

(** ** Reading the lines of a table *)

Module LoaderSpec.

(** [k] and [v] are the first two fields of a line of [lines], and no later
    line of [lines] with two fields or more has [k] as its first. *)
Definition last_entry (lines : list (list N)) (k v : list N) : Prop :=
  ∃ i line rest,
    lines !! i = Some line ∧ split (strip line) = k :: v :: rest ∧
    ∀ j line' v' rest',
      i < j → lines !! j = Some line' → split (strip line') ≠ k :: v' :: rest'.

(** A line whose first character that is not whitespace is '#'. *)
Definition is_comment (line : list N) : bool := startswith (strip line) (py "#").

(** A field: not empty and free of whitespace. *)
Definition field (f : list N) : Prop := f ≠ [] ∧ Forall (λ c, isspace c = false) f.

End LoaderSpec.

(** ** Two decomposition-table files *)

(** The table with the one line "人 PN" (U+4EBA). *)
Definition table_ren : gmap (list N) (list N) :=
  {[ py "zh2text.txt" := [20154%N] ++ py " PN" ++ [10%N] ]}.

(** A table with a comment line before the entry "一 H" (U+4E00). *)
Definition table_comment : gmap (list N) (list N) :=
  {[ py "zh2letter.txt" := py "# char strokes" ++ [10%N; 19968%N] ++ py " H" ++ [10%N] ]}.

(** * Properties *)

(** ** The [result] monad and slices *)

Lemma bind_Ok {A B} (f : A → result B) (a : A) : (Ok a ≫= f) = f a.
Proof. reflexivity. Qed.

Lemma for_each_pure {A B} (f : A → result B) (g : A → B) (l : list A) :
  (∀ x, f x = Ok (g x)) → for_each f l = Ok (g <$> l).
Proof.
  intros Hf. induction l as [|x l IH]; [done|].
  cbn. rewrite Hf, bind_Ok, IH. reflexivity.
Qed.

Lemma for_each_app {A B} (f : A → result B) (l1 l2 : list A) (r1 r2 : list B) :
  for_each f l1 = Ok r1 → for_each f l2 = Ok r2 → for_each f (l1 ++ l2) = Ok (r1 ++ r2).
Proof.
  revert r1. induction l1 as [|x l1 IH]; intros r1 H1 H2.
  - cbn in H1. injection H1 as <-. done.
  - cbn in *. destruct (f x) as [y|e]; [|done]. cbn in *.
    destruct (for_each f l1) as [ys|e]; [|done]. cbn in *.
    injection H1 as <-. rewrite (IH ys eq_refl H2). done.
Qed.

Lemma slice_to_nonneg {A} (n : Z) (l : list A) :
  (0 ≤ n)%Z → slice_to n l = take (Z.to_nat n) l.
Proof. intros Hn. unfold slice_to. destruct (Z.leb_spec 0 n); [done|lia]. Qed.

Lemma slice_to_of_nat {A} (n : nat) (l : list A) : slice_to (Z.of_nat n) l = take n l.
Proof. rewrite slice_to_nonneg by lia. by rewrite Nat2Z.id. Qed.

Lemma take_pred_length {A} (l : list A) : take (length l - 1) l = removelast l.
Proof.
  induction l as [|x l IH]; [done|].
  destruct l as [|y l]; [done|].
  cbn [length] in *. replace (S (S (length l)) - 1) with (S (S (length l) - 1)) by lia.
  cbn [take]. rewrite IH. done.
Qed.

Lemma slice_to_minus_one {A} (l : list A) : slice_to (-1) l = removelast l.
Proof. apply take_pred_length. Qed.

Lemma repeat_list_of_nat {A} (x : A) (n : nat) : repeat_list x (Z.of_nat n) = replicate n x.
Proof. unfold repeat_list. by rewrite Nat2Z.id. Qed.

Lemma repeat_list_nonpos {A} (x : A) (n : Z) : (n ≤ 0)%Z → repeat_list x n = [].
Proof. intros Hn. unfold repeat_list. replace (Z.to_nat n) with 0 by lia. done. Qed.

(** ** Whitespace *)

Lemma lstrip_nil (s : str) : lstrip s = [] ↔ Forall (λ c, isspace c = true) s.
Proof.
  induction s as [|c s IH]; cbn.
  - split; [constructor|done].
  - destruct (isspace c) eqn:Hc.
    + rewrite IH. split; [by constructor|by inversion 1].
    + split; [done|]. inversion 1; congruence.
Qed.

Lemma lstrip_head (s : str) :
  match lstrip s with [] => True | c :: _ => isspace c = false end.
Proof.
  induction s as [|c s IH]; cbn; [done|].
  destruct (isspace c) eqn:Hc; [done|]. cbn. done.
Qed.

Lemma forallb_Forall {A} (f : A → bool) (l : list A) :
  forallb f l = true ↔ Forall (λ c, f c = true) l.
Proof.
  induction l as [|x l IH]; cbn.
  - split; [constructor|done].
  - rewrite andb_true_iff, IH. split; [intros []; by constructor|by inversion 1].
Qed.

(** [s.strip()] is empty exactly when [s] is empty or whitespace-only. *)
Lemma strip_nil (s : str) : strip s = [] ↔ forallb isspace s = true.
Proof.
  rewrite forallb_Forall. unfold strip, rstrip. split.
  - intros H. apply (f_equal reverse) in H. rewrite reverse_involutive, reverse_nil in H.
    apply lstrip_nil in H. rewrite Forall_reverse in H.
    pose proof (lstrip_head s) as Hh. destruct (lstrip s) as [|c r] eqn:E.
    + by apply lstrip_nil in E.
    + apply Forall_cons in H as [Hc _]. cbn in Hc, Hh. congruence.
  - intros H. apply lstrip_nil in H. rewrite H. done.
Qed.

(** ** The phonetic tokenizer *)

Section PinyinProperties.
Variable unicode_digit : char → bool.

Let isdigit := Pinyin.isdigit unicode_digit.
Let split_pinyin := Pinyin.split_pinyin unicode_digit.

Lemma pinyin_special_ids :
  getitem Pinyin.build_token2id pad_token = Ok 0 ∧
  getitem Pinyin.build_token2id unk_token = Ok 1 ∧
  getitem Pinyin.build_token2id cls_token = Ok 2 ∧
  getitem Pinyin.build_token2id sep_token = Ok 3.
Proof. vm_compute. done. Qed.

(** Construction succeeds, and the vocabulary does not depend on the
    argument. *)
Lemma pinyin_init (ml : Z) :
  Pinyin.__init__ ml =
    Ok {| Pinyin.max_length := ml; Pinyin.token2id := Pinyin.build_token2id;
          Pinyin.id2token := invert Pinyin.build_token2id; Pinyin.pad_token_id := 0 |}.
Proof.
  unfold Pinyin.__init__, Pinyin._build_vocab. cbv beta iota zeta.
  destruct pinyin_special_ids as (-> & _). reflexivity.
Qed.

Lemma split_from_length (t2i : gmap (list N) nat) (core tone : str) (i : nat) :
  length (Pinyin.split_from t2i core tone i) = 3.
Proof.
  induction i as [|i IH]; [done|].
  cbn [Pinyin.split_from]. by destruct (contains _ _).
Qed.

(** The split is total and always yields a triple. *)
Lemma split_pinyin_length (self : Pinyin.PinyinTokenizer) (p : str) :
  length (split_pinyin self p) = 3.
Proof. apply split_from_length. Qed.

(** What the loop computes: the longest prefix of the core, of length [i]
    at most, that is a key of [token2id]. *)
Lemma split_from_greedy (t2i : gmap (list N) nat) (core tone : str) (i : nat) :
  (∃ n, 1 ≤ n ≤ i ∧ is_Some (t2i !! take n core) ∧
        (∀ m, n < m ≤ i → t2i !! take m core = None) ∧
        Pinyin.split_from t2i core tone i = [take n core; drop n core; tone])
  ∨ ((∀ m, 1 ≤ m ≤ i → t2i !! take m core = None) ∧
     Pinyin.split_from t2i core tone i = [unk_token; unk_token; tone]).
Proof.
  induction i as [|i IH].
  - right. split; [intros m Hm; lia|done].
  - cbn [Pinyin.split_from]. rewrite slice_to_of_nat. unfold contains, slice_from.
    destruct (t2i !! take (S i) core) as [v|] eqn:E.
    + left. exists (S i). split_and!; [lia|lia|by rewrite E|intros m Hm; lia|done].
    + destruct IH as [(n & Hn & Hin & Hmax & ->)|[Hnone ->]].
      * left. exists n. split_and!; [lia|lia|done| |done].
        intros m Hm. destruct (decide (m = S i)) as [->|]; [done|]. apply Hmax. lia.
      * right. split; [|done].
        intros m Hm. destruct (decide (m = S i)) as [->|]; [done|]. apply Hnone. lia.
Qed.

(** Tone extraction agrees with its specification except on a final "5". *)
Lemma tone_core_agree (p : str) :
  last p ≠ Some 53%N →
  (Pinyin.tone_of unicode_digit p, Pinyin.core_of unicode_digit p)
    = PinyinSpec.tone_and_core isdigit p.
Proof.
  intros H5. unfold Pinyin.core_of, Pinyin.tone_of, PinyinSpec.tone_and_core.
  destruct (last p) as [c|] eqn:El; [|done].
  fold isdigit. destruct (isdigit c) eqn:Ed.
  - rewrite bool_decide_eq_true_2.
    + by rewrite slice_to_minus_one.
    + intros [= ->]. done.
  - done.
Qed.

Lemma token_id_ok (ml : Z) (tk : Pinyin.PinyinTokenizer) :
  Pinyin.__init__ ml = Ok tk →
  ∀ t : str, Pinyin.token_id tk t = Ok (default 1 (Pinyin.token2id tk !! t)).
Proof.
  rewrite pinyin_init. intros [= <-] t. unfold Pinyin.token_id. cbn [Pinyin.token2id].
  destruct pinyin_special_ids as (_ & -> & _). reflexivity.
Qed.

Let entry_ids := PinyinSpec.entry_ids unicode_digit.

Lemma entry_ids_length (tk : Pinyin.PinyinTokenizer) (syl : list str) :
  length (entry_ids tk syl) = 3.
Proof. unfold entry_ids, PinyinSpec.entry_ids. rewrite length_fmap. apply split_pinyin_length. Qed.

Lemma encode_loop_ok (ml : Z) (tk : Pinyin.PinyinTokenizer) (syllables : list (list str))
    (ids : list nat) :
  Pinyin.__init__ ml = Ok tk →
  Pinyin.encode_loop unicode_digit tk syllables ids
    = Ok (ids ++ (PinyinSpec.retained syllables ≫= entry_ids tk)).
Proof.
  intros Hinit. revert ids. induction syllables as [|syl rest IH]; intros ids.
  - cbn. by rewrite app_nil_r.
  - cbn [Pinyin.encode_loop PinyinSpec.retained List.filter PinyinSpec.skipped].
    destruct syl as [|s0 syl']; [apply IH|].
    change (PinyinSpec.skipped (s0 :: syl')) with (forallb isspace s0).
    fold (PinyinSpec.retained rest).
    destruct (strip s0) as [|c r] eqn:Es.
    + apply strip_nil in Es. rewrite Es. apply IH.
    + assert (forallb isspace s0 = false) as ->.
      { destruct (forallb isspace s0) eqn:Ef; [|done]. apply strip_nil in Ef. congruence. }
      cbn [negb]. rewrite (for_each_pure _ _ _ (token_id_ok ml tk Hinit)), bind_Ok.
      rewrite IH. cbn [mbind list_bind]. fold (PinyinSpec.retained rest).
      unfold entry_ids at 2, PinyinSpec.entry_ids. cbn [hd]. by rewrite <- app_assoc.
Qed.

Lemma bind_length_3 {A B} (f : A → list B) (l : list A) :
  (∀ x, length (f x) = 3) → length (l ≫= f) = 3 * length l.
Proof.
  intros Hf. induction l as [|x l IH]; [done|].
  cbn [mbind list_bind]. cbn [length]. rewrite length_app, Hf.
  change (length (l ≫= f) = 3 * length l) in IH. lia.
Qed.

(** C3.  Whatever entries the romanization utility returns, [encode] drops
    the empty and whitespace-only ones, emits the three ids of each retained
    entry in order, and so returns [3 * k] ids for [k] retained entries; for
    [k = 0] it returns the single id of UNK.  It does not raise and never
    returns an empty list. *)
Theorem encode_emits_triples (ml : Z) (syllables : list (list str)) :
  ∃ tk ids,
    Pinyin.__init__ ml = Ok tk ∧
    Pinyin.encode_syllables unicode_digit tk syllables = Ok ids ∧
    ids = match PinyinSpec.retained syllables with
          | [] => [1]
          | kept => kept ≫= PinyinSpec.entry_ids unicode_digit tk
          end ∧
    Forall (λ syl, length (PinyinSpec.entry_ids unicode_digit tk syl) = 3) syllables ∧
    length ids = match length (PinyinSpec.retained syllables) with
                 | 0 => 1
                 | k => 3 * k
                 end ∧
    Pinyin.token2id tk !! unk_token = Some 1 ∧
    0 < length ids.
Proof.
  set (tk := {| Pinyin.max_length := ml; Pinyin.token2id := Pinyin.build_token2id;
                Pinyin.id2token := invert Pinyin.build_token2id;
                Pinyin.pad_token_id := 0 |}).
  pose proof (encode_loop_ok ml tk syllables [] (pinyin_init ml)) as Hloop.
  assert (Forall (λ syl, length (entry_ids tk syl) = 3) syllables) as Hall.
  { apply Forall_forall. intros x _. apply entry_ids_length. }
  assert (Pinyin.build_token2id !! unk_token = Some 1) as Hunk by (vm_compute; done).
  pose proof (bind_length_3 (entry_ids tk) (PinyinSpec.retained syllables)
                (entry_ids_length tk)) as Hlen.
  cbn [app] in Hloop.
  destruct (PinyinSpec.retained syllables) as [|syl kept] eqn:Ek.
  - exists tk, [1]. split; [apply pinyin_init|].
    unfold Pinyin.encode_syllables. rewrite Hloop, bind_Ok.
    cbn [mbind list_bind Pinyin.token2id]. unfold getitem. subst tk. cbn [Pinyin.token2id].
    rewrite Hunk. split_and!; [reflexivity|reflexivity|exact Hall|reflexivity|done|cbn; lia].
  - exists tk, ((syl :: kept) ≫= entry_ids tk). split; [apply pinyin_init|].
    unfold Pinyin.encode_syllables. rewrite Hloop, bind_Ok.
    subst entry_ids.
    destruct (_ ≫= PinyinSpec.entry_ids _ _) as [|i ids] eqn:Eb; [cbn in Hlen; lia|].
    split_and!; [reflexivity|reflexivity|exact Hall|exact Hlen|done|cbn; lia].
Qed.

(** C1.  On the syllable "an1" the split reports the final "an" as the
    initial and an empty final: the loop tests membership in the whole
    vocabulary [token2id], not in the initials.  The specified split of the
    core "an", which has no initial as a prefix, is (UNK, UNK, "1").  The
    syllable "zhong1" splits as specified. *)
Theorem split_pinyin_takes_final_as_initial :
  ∃ tk,
    Pinyin.__init__ 128 = Ok tk ∧
    Pinyin.split_pinyin unicode_digit tk (py "an1") = [py "an"; py ""; py "1"] ∧
    PinyinSpec.tone_and_core (Pinyin.isdigit unicode_digit) (py "an1") = (py "1", py "an") ∧
    PinyinSpec.split_core Pinyin.initials (py "an") (py "1")
      = [unk_token; unk_token; py "1"] ∧
    Pinyin.split_pinyin unicode_digit tk (py "zhong1") = [py "zh"; py "ong"; py "1"] ∧
    PinyinSpec.split_core Pinyin.initials (py "zhong") (py "1")
      = [py "zh"; py "ong"; py "1"].
Proof. eexists. split; [apply pinyin_init|]. vm_compute. done. Qed.

(** C2.  On "ma5", whose last character is the digit 5, the tone is "5" but
    the digit is not removed: the core is "ma5" and the final "a5".  The
    test [tone != '5'] stands for "a digit was found".  As specified the
    core is "ma" and the split (m, a, 5). *)
Theorem split_pinyin_keeps_digit_five :
  ∃ tk,
    Pinyin.__init__ 128 = Ok tk ∧
    Pinyin.isdigit unicode_digit 53 = true ∧
    Pinyin.tone_of unicode_digit (py "ma5") = py "5" ∧
    Pinyin.core_of unicode_digit (py "ma5") = py "ma5" ∧
    Pinyin.split_pinyin unicode_digit tk (py "ma5") = [py "m"; py "a5"; py "5"] ∧
    PinyinSpec.tone_and_core (Pinyin.isdigit unicode_digit) (py "ma5") = (py "5", py "ma") ∧
    PinyinSpec.split_core Pinyin.initials (py "ma") (py "5") = [py "m"; py "a"; py "5"].
Proof. eexists. split; [apply pinyin_init|]. vm_compute. done. Qed.

End PinyinProperties.

(** ** Dictionaries *)

Section Dict.
Context `{Countable K} {V : Type}.
Implicit Types (l : list (K * V)) (k : K) (v : V).

Lemma dict_of_snoc l kv : dict_of (l ++ [kv]) = <[kv.1 := kv.2]> (dict_of l).
Proof. unfold dict_of. by rewrite foldl_snoc. Qed.

(** With distinct keys the comprehension holds exactly the pairs listed. *)
Lemma dict_of_lookup l k v : NoDup l.*1 → dict_of l !! k = Some v ↔ (k, v) ∈ l.
Proof.
  induction l as [|[k' v'] l IH] using rev_ind; intros Hnd.
  - unfold dict_of. cbn. rewrite lookup_empty. split; [done|by inversion 1].
  - rewrite fmap_app in Hnd. apply NoDup_app in Hnd as (Hl & Hnew & _).
    rewrite dict_of_snoc, lookup_insert_Some, elem_of_app, list_elem_of_singleton, (IH Hl).
    cbn [fst snd]. split.
    + intros [[-> ->]|[_ Hin]]; [by right|by left].
    + intros [Hin|[= -> ->]]; [|by left].
      right. split; [|done]. intros ->.
      apply (Hnew k); [|cbn; by left].
      change k with (k, v).1. by apply list_elem_of_fmap_2.
Qed.
End Dict.

(** [{i: s for i, s in enumerate(V)}] *)
Lemma dict_of_enumerate {A} (V : list A) (i : nat) : dict_of (enumerate V) !! i = V !! i.
Proof.
  assert (NoDup (enumerate V).*1) as Hnd.
  { unfold enumerate. rewrite fmap_imap. apply NoDup_alt. intros a b x.
    rewrite !list_lookup_imap_Some. intros (y & _ & ->) (z & _ & E). done. }
  apply option_eq. intros s. rewrite (dict_of_lookup _ _ _ Hnd).
  unfold enumerate. rewrite elem_of_lookup_imap. split.
  - intros (j & y & [= -> ->] & Hy). done.
  - intros Hs. by exists i, s.
Qed.

(** [{s: i for i, s in enumerate(V)}] for distinct symbols. *)
Lemma enumerate_numbers (V : list (list N)) :
  NoDup V → VocabSpec.numbers V (dict_of ((λ it, (it.2, it.1)) <$> enumerate V)).
Proof.
  intros Hnd s i.
  assert (((λ it : nat * list N, (it.2, it.1)) <$> enumerate V).*1 = V) as Hkeys.
  { apply list_eq. intros j. unfold enumerate.
    rewrite !list_lookup_fmap, list_lookup_imap. by destruct (V !! j). }
  rewrite dict_of_lookup by (by rewrite Hkeys).
  rewrite list_elem_of_fmap. unfold enumerate. setoid_rewrite elem_of_lookup_imap. split.
  - intros (x & [= -> ->] & j & y & -> & Hy). done.
  - intros Hs. exists (i, s). split; [done|]. by exists i, s.
Qed.

Lemma numbers_inj (V : list (list N)) (m : gmap (list N) nat) (s1 s2 : list N) (i : nat) :
  VocabSpec.numbers V m → m !! s1 = Some i → m !! s2 = Some i → s1 = s2.
Proof. intros Hm H1%Hm H2%Hm. congruence. Qed.

(** Inverting an injective dictionary gives its inverse. *)
Lemma invert_lookup (m : gmap (list N) nat) (s : list N) (i : nat) :
  (∀ s1 s2 j, m !! s1 = Some j → m !! s2 = Some j → s1 = s2) →
  invert m !! i = Some s ↔ m !! s = Some i.
Proof.
  intros Hinj. unfold invert. rewrite dict_of_lookup.
  - rewrite list_elem_of_fmap. split.
    + intros ([s' i'] & [= -> ->] & Hin). by apply elem_of_map_to_list.
    + intros Hs. exists (s, i). split; [done|]. by apply elem_of_map_to_list.
  - rewrite <- list_fmap_compose. apply NoDup_fmap_2_strong; [|apply NoDup_map_to_list].
    intros [s1 i1] [s2 i2] H1%elem_of_map_to_list H2%elem_of_map_to_list. cbn.
    intros <-. f_equal. by eapply Hinj.
Qed.

(** A numbering of a duplicate-free list and its inversion form a dense
    bijective vocabulary. *)
Lemma numbers_bijective_dense (V : list (list N)) (m : gmap (list N) nat) :
  VocabSpec.numbers V m → VocabSpec.bijective_dense m (invert m) (length V).
Proof.
  intros Hm. assert (∀ s i, invert m !! i = Some s ↔ m !! s = Some i) as Hinv.
  { intros s i. apply invert_lookup. intros s1 s2 j. apply (numbers_inj V m _ _ _ Hm). }
  split.
  - intros s i. by rewrite Hinv.
  - intros i. rewrite <- lookup_lt_is_Some. unfold is_Some.
    setoid_rewrite Hinv. setoid_rewrite (Hm _ i). done.
Qed.

(** ** The graphemic vocabulary *)

Lemma elem_of_chars (x v : list N) : x ∈ chars v ↔ ∃ c, x = [c] ∧ c ∈ v.
Proof. unfold chars. apply list_elem_of_fmap. Qed.

(** The discovered symbols are the characters of the table's values. *)
Lemma elem_of_stroke_set (c2s : gmap (list N) (list N)) (x : list N) :
  x ∈ Stroke.stroke_set c2s ↔ ∃ k v c, c2s !! k = Some v ∧ c ∈ v ∧ x = [c].
Proof.
  unfold Stroke.stroke_set. rewrite elem_of_list_to_set, list_elem_of_bind. split.
  - intros (v & (c & -> & Hc)%elem_of_chars & ([k v'] & -> & Hkv%elem_of_map_to_list)%list_elem_of_fmap).
    by exists k, v', c.
  - intros (k & v & c & Hkv & Hc & ->). exists v. split.
    + apply elem_of_chars. by exists c.
    + apply list_elem_of_fmap. exists (k, v). split; [done|]. by apply elem_of_map_to_list.
Qed.

Lemma foldl_union_chars (l : list (list N)) (acc : gset (list N)) :
  foldl (λ acc stroke_seq, acc ∪ list_to_set (chars stroke_seq)) acc l
    = acc ∪ list_to_set (l ≫= chars).
Proof.
  revert acc. induction l as [|v l IH]; intros acc; cbn [foldl].
  - cbn. by rewrite union_empty_r_L.
  - rewrite IH. cbn [mbind list_bind]. fold (l ≫= chars).
    rewrite list_to_set_app_L. by rewrite (assoc_L (∪)).
Qed.

(** Both classes collect the same set of symbols. *)
Lemma all_strokes_stroke_set (c2s : gmap (list N) (list N)) :
  ZhText.all_strokes c2s = Stroke.stroke_set c2s.
Proof.
  unfold ZhText.all_strokes, Stroke.stroke_set. by rewrite foldl_union_chars, union_empty_l_L.
Qed.

Lemma sorted_elem_of (S : gset (list N)) (x : list N) : x ∈ sorted S ↔ x ∈ S.
Proof. unfold sorted. by rewrite merge_sort_Permutation, elem_of_elements. Qed.

Lemma sorted_NoDup (S : gset (list N)) : NoDup (sorted S).
Proof. unfold sorted. rewrite merge_sort_Permutation. apply NoDup_elements. Qed.

(** A discovered symbol is one character long, a special token five. *)
Lemma stroke_not_special (c2s : gmap (list N) (list N)) (x : list N) :
  x ∈ Stroke.stroke_set c2s → x ∉ special_tokens.
Proof.
  intros (k & v & c & _ & _ & ->)%elem_of_stroke_set Hin.
  unfold special_tokens in Hin. rewrite !elem_of_cons in Hin.
  destruct Hin as [E|[E|[E|[E|E]]]]; try discriminate E. by inversion E.
Qed.

Lemma special_tokens_NoDup : NoDup special_tokens.
Proof. apply (bool_decide_unpack _). vm_compute. done. Qed.

Lemma stroke_vocab_NoDup (c2s : gmap (list N) (list N)) :
  NoDup (special_tokens ++ sorted (Stroke.stroke_set c2s)).
Proof.
  apply NoDup_app. split_and!; [apply special_tokens_NoDup| |apply sorted_NoDup].
  intros x Hx Hs%sorted_elem_of. by apply (stroke_not_special c2s x).
Qed.

(** The cases of a lookup through the four insertions of the special tokens. *)
Local Ltac special_case :=
  let Hc := fresh "Hc" in
  intros Hc;
  repeat (destruct Hc as [[<- ?]|[? Hc]]; [first [lia|done]|]);
  destruct Hc as (? & ? & ?); lia.

(** [_build_vocab] of stroke_tokenizer.py numbers the special tokens followed
    by the sorted discovered symbols, as [_build_stroke_vocab] of zh2text.py
    does. *)
Lemma build_stroke2id_numbers (c2s : gmap (list N) (list N)) :
  VocabSpec.numbers (special_tokens ++ sorted (Stroke.stroke_set c2s))
    (Stroke.build_stroke2id c2s).
Proof.
  intros s i. unfold Stroke.build_stroke2id.
  set (St := sorted (Stroke.stroke_set c2s)).
  assert (∀ j, dict_of ((λ it : nat * list N, (it.2, it.1 + 4)) <$> enumerate St) !! s = Some j
               ↔ ∃ n, j = n + 4 ∧ St !! n = Some s) as Hd.
  { intros j. rewrite dict_of_lookup.
    - rewrite list_elem_of_fmap. unfold enumerate. setoid_rewrite elem_of_lookup_imap. split.
      + intros (x & [= -> ->] & n & y & -> & Hy). by exists n.
      + intros (n & -> & Hn). exists (n, s). split; [done|]. by exists n, s.
    - replace (_.*1) with St; [apply sorted_NoDup|].
      apply list_eq. intros n. unfold enumerate.
      rewrite !list_lookup_fmap, list_lookup_imap. by destruct (St !! n). }
  assert (St !! (i - 4) = Some s → s ∉ special_tokens) as Hns.
  { intros Hin. apply (stroke_not_special c2s), sorted_elem_of.
    apply list_elem_of_lookup. by exists (i - 4). }
  rewrite !lookup_insert_Some, Hd. unfold special_tokens in *.
  destruct i as [|[|[|[|i]]]]; cbn [lookup list_lookup app].
  4: { split; [special_case|]. intros [= <-]. by left. }
  3: { split; [special_case|]. intros [= <-]. right. split; [done|]. by left. }
  2: { split; [special_case|]. intros [= <-]. right. split; [done|].
       right. split; [done|]. by left. }
  1: { split; [special_case|]. intros [= <-]. right. split; [done|].
       right. split; [done|]. right. split; [done|]. by left. }
  replace (S (S (S (S i))) - 4) with i in Hns by lia. split.
  - intros [[_ ?]|[_ [[_ ?]|[_ [[_ ?]|[_ [[_ ?]|(_ & n & ? & Hn)]]]]]]]; try lia.
    by replace i with n by lia.
  - intros Hi. specialize (Hns Hi). rewrite !not_elem_of_cons in Hns.
    destruct Hns as (? & ? & ? & ? & _).
    do 4 (right; split; [done|]). exists i. split; [lia|done].
Qed.

Lemma build_stroke2idx_numbers (c2s : gmap (list N) (list N)) :
  VocabSpec.numbers (special_tokens ++ sorted (Stroke.stroke_set c2s))
    (ZhText.build_stroke2idx c2s).
Proof.
  unfold ZhText.build_stroke2idx, ZhText.vocab. rewrite all_strokes_stroke_set.
  apply enumerate_numbers, stroke_vocab_NoDup.
Qed.

Lemma numbers_size (V : list (list N)) (m : gmap (list N) nat) :
  NoDup V → VocabSpec.numbers V m → size m = length V.
Proof.
  intros Hnd Hm. rewrite <- size_dom, <- (size_list_to_set (C := gset (list N)) V) by done.
  f_equal. apply set_eq. intros s.
  rewrite elem_of_dom, elem_of_list_to_set, list_elem_of_lookup. unfold is_Some.
  split; intros [i Hi]; exists i; by apply Hm.
Qed.

(** In a numbering of the special tokens followed by the discovered symbols
    the ids 0 to 3 are those of the special tokens, in their order, and every
    discovered symbol has an id from 4 on. *)
Lemma numbers_reserved (St : list (list N)) (m : gmap (list N) nat) :
  VocabSpec.numbers (special_tokens ++ St) m →
  (m !! pad_token = Some 0 ∧ m !! unk_token = Some 1 ∧
   m !! cls_token = Some 2 ∧ m !! sep_token = Some 3) ∧
  (∀ s i, m !! s = Some i → i < 4 → special_tokens !! i = Some s) ∧
  (∀ s, s ∈ St → ∃ i, m !! s = Some i ∧ 4 ≤ i).
Proof.
  intros Hm. split_and!; try (by apply Hm).
  - intros s i Hs%Hm Hi. rewrite lookup_app_l in Hs; [done|]. cbn. lia.
  - intros s (n & Hn)%list_elem_of_lookup. exists (4 + n). split; [|lia].
    apply Hm. rewrite lookup_app_r by (cbn; lia). cbn [length special_tokens].
    by replace (4 + n - 4) with n by lia.
Qed.

(** Construction of the graphemic tokenizer succeeds whatever the table. *)
Lemma stroke_new (ml : Z) (c2s : gmap (list N) (list N)) :
  Stroke.new ml c2s =
    Ok {| Stroke.max_length := ml; Stroke.char2stroke := c2s;
          Stroke.stroke2id := Stroke.build_stroke2id c2s;
          Stroke.id2stroke := invert (Stroke.build_stroke2id c2s);
          Stroke.vocab_size := size (Stroke.build_stroke2id c2s);
          Stroke.pad_token_id := 0 |}.
Proof.
  unfold Stroke.new, Stroke._build_vocab. cbv beta iota zeta.
  destruct (numbers_reserved _ _ (build_stroke2id_numbers c2s)) as ((Hpad & _) & _).
  unfold getitem. rewrite Hpad. reflexivity.
Qed.

(** Loading never raises: a missing file gives the empty table. *)
Lemma stroke_load_ok (fs : gmap (list N) (list N)) (path : list N) :
  ∃ c2s, (Stroke._load_zh2text fs path).2 = Ok c2s.
Proof.
  unfold Stroke._load_zh2text, open_lines. destruct (fs !! path); by eexists.
Qed.

Lemma stroke_init (fs : gmap (list N) (list N)) (dp : list N)
    (path : option (list N)) (ml : Z) :
  ∃ c2s, (Stroke._load_zh2text fs (default dp path)).2 = Ok c2s ∧
         (Stroke.__init__ fs dp path ml).2 = Stroke.new ml c2s.
Proof.
  destruct (stroke_load_ok fs (default dp path)) as [c2s Hc]. exists c2s. split; [done|].
  unfold Stroke.__init__. destruct (Stroke._load_zh2text _ _) as [out r].
  cbn [snd] in *. by rewrite Hc.
Qed.

Lemma pinyin_vocab_NoDup : NoDup Pinyin.vocab.
Proof. apply (bool_decide_unpack _). vm_compute. done. Qed.

(** C8.  In both schemes the vocabulary built at construction is a bijection
    between its symbols and the ids from 0 up to its size, with the reverse
    table as inverse: looking a symbol up and reversing the id gives the
    symbol back. *)
Theorem vocabulary_round_trip :
  (∀ ml : Z, ∃ tk,
      Pinyin.__init__ ml = Ok tk ∧
      VocabSpec.numbers Pinyin.vocab (Pinyin.token2id tk) ∧
      VocabSpec.bijective_dense (Pinyin.token2id tk) (Pinyin.id2token tk)
        (length Pinyin.vocab)) ∧
  (∀ (fs : gmap (list N) (list N)) (dp : list N) (path : option (list N)) (ml : Z), ∃ tk,
      (Stroke.__init__ fs dp path ml).2 = Ok tk ∧
      VocabSpec.numbers
        (special_tokens ++ sorted (Stroke.stroke_set (Stroke.char2stroke tk)))
        (Stroke.stroke2id tk) ∧
      VocabSpec.bijective_dense (Stroke.stroke2id tk) (Stroke.id2stroke tk)
        (Stroke.vocab_size tk)) ∧
  (∀ c2s : gmap (list N) (list N),
      VocabSpec.numbers (ZhText.vocab c2s) (ZhText.build_stroke2idx c2s) ∧
      VocabSpec.bijective_dense (ZhText.build_stroke2idx c2s) (ZhText.build_idx2stroke c2s)
        (length (ZhText.vocab c2s))).
Proof.
  split_and!.
  - intros ml. eexists. split; [apply pinyin_init|]. cbn [Pinyin.token2id Pinyin.id2token].
    pose proof (enumerate_numbers _ pinyin_vocab_NoDup) as Hn.
    split; [exact Hn|]. by apply numbers_bijective_dense.
  - intros fs dp path ml. destruct (stroke_init fs dp path ml) as (c2s & _ & ->).
    eexists. split; [apply stroke_new|].
    cbn [Stroke.stroke2id Stroke.id2stroke Stroke.vocab_size Stroke.char2stroke].
    pose proof (build_stroke2id_numbers c2s) as Hn. split; [exact Hn|].
    rewrite (numbers_size _ _ (stroke_vocab_NoDup c2s) Hn).
    by apply numbers_bijective_dense.
  - intros c2s. assert (VocabSpec.numbers (ZhText.vocab c2s) (ZhText.build_stroke2idx c2s)) as Hn.
    { unfold ZhText.vocab. rewrite all_strokes_stroke_set. apply build_stroke2idx_numbers. }
    split; [exact Hn|]. split.
    + intros s i. unfold ZhText.build_idx2stroke. rewrite dict_of_enumerate. apply Hn.
    + intros i. unfold ZhText.build_idx2stroke. rewrite dict_of_enumerate.
      apply lookup_lt_is_Some.
Qed.

(** C9.  For every decomposition table both vocabulary builders give PAD,
    UNK, CLS and SEP the ids 0, 1, 2 and 3, give an id below 4 to no other
    symbol, and give every discovered symbol, none of which is a special
    token, an id of 4 or more. *)
Theorem reserved_ids_fixed (c2s : gmap (list N) (list N)) :
  let m1 := Stroke.build_stroke2id c2s in
  let m2 := ZhText.build_stroke2idx c2s in
  (m1 !! pad_token = Some 0 ∧ m1 !! unk_token = Some 1 ∧
   m1 !! cls_token = Some 2 ∧ m1 !! sep_token = Some 3) ∧
  (m2 !! pad_token = Some 0 ∧ m2 !! unk_token = Some 1 ∧
   m2 !! cls_token = Some 2 ∧ m2 !! sep_token = Some 3) ∧
  (∀ s i, m1 !! s = Some i → i < 4 → special_tokens !! i = Some s) ∧
  (∀ s i, m2 !! s = Some i → i < 4 → special_tokens !! i = Some s) ∧
  (∀ s, s ∈ Stroke.stroke_set c2s →
     (s ∉ special_tokens) ∧
     (∃ i, m1 !! s = Some i ∧ 4 ≤ i) ∧ (∃ i, m2 !! s = Some i ∧ 4 ≤ i)).
Proof.
  intros m1 m2.
  destruct (numbers_reserved _ _ (build_stroke2id_numbers c2s)) as (Hs1 & Hr1 & Hd1).
  destruct (numbers_reserved _ _ (build_stroke2idx_numbers c2s)) as (Hs2 & Hr2 & Hd2).
  split; [exact Hs1|]. split; [exact Hs2|]. split; [exact Hr1|]. split; [exact Hr2|].
  intros s Hs. split_and!.
  - by apply (stroke_not_special c2s).
  - by apply Hd1, sorted_elem_of.
  - by apply Hd2, sorted_elem_of.
Qed.

Lemma reserved_ids_fixed_witness :
  ∃ i, Stroke.build_stroke2id {[ [19968%N] := py "HZ" ]} !! py "Z" = Some i ∧ 4 ≤ i.
Proof.
  destruct (reserved_ids_fixed {[ [19968%N] := py "HZ" ]}) as (_ & _ & _ & _ & Hd).
  destruct (Hd (py "Z")) as (_ & Hi & _); [|exact Hi].
  apply elem_of_stroke_set. exists [19968%N], (py "HZ"), 90%N.
  split_and!; [apply lookup_singleton_eq|by right; left|done].
Defined.

(** ** The graphemic decomposition *)

Lemma foldl_app_bind {A B} (g : list B → A → list B) (f : A → list B)
    (l : list A) (acc : list B) :
  (∀ acc x, g acc x = acc ++ f x) → foldl g acc l = acc ++ (l ≫= f).
Proof.
  intros Hg. revert acc. induction l as [|x l IH]; intros acc; cbn [foldl].
  - by rewrite app_nil_r.
  - rewrite IH, Hg. cbn [mbind list_bind]. by rewrite <- app_assoc.
Qed.

(** stroke_tokenizer.py decomposes character by character as specified. *)
Lemma stroke_text_to_strokes (self : Stroke.StrokeTokenizer) (text : list N) :
  Stroke.text_to_strokes self text
    = text ≫= GraphemicSpec.char_symbols (Stroke.char2stroke self).
Proof.
  unfold Stroke.text_to_strokes.
  rewrite (foldl_app_bind _ (GraphemicSpec.char_symbols (Stroke.char2stroke self))); [done|].
  intros acc ch. unfold GraphemicSpec.char_symbols.
  by destruct (Stroke.char2stroke self !! [ch]).
Qed.

(** zh2text.py spreads the five characters of the string "[UNK]" for a
    character without entry. *)
Lemma zhtext_text_to_strokes (self : ZhText.StrokeTokenizer) (text : list N) :
  ZhText.text_to_strokes self text
    = text ≫= (λ ch, chars (default unk_token (ZhText.char2stroke self !! [ch]))).
Proof.
  unfold ZhText.text_to_strokes.
  by rewrite (foldl_app_bind _ (λ ch, chars (ZhText.char_to_strokes self [ch]))).
Qed.

Lemma stroke_id_ok (ml : Z) (c2s : gmap (list N) (list N)) (tk : Stroke.StrokeTokenizer) :
  Stroke.new ml c2s = Ok tk →
  ∀ s, Stroke.stroke_id tk s = Ok (GraphemicSpec.symbol_id (Stroke.stroke2id tk) s).
Proof.
  rewrite stroke_new. intros [= <-] s. unfold Stroke.stroke_id. cbn [Stroke.stroke2id].
  destruct (numbers_reserved _ _ (build_stroke2id_numbers c2s)) as ((_ & Hunk & _) & _).
  unfold getitem. rewrite Hunk. reflexivity.
Qed.

Lemma fmap_bind_list {A B C} (g : B → C) (f : A → list B) (l : list A) :
  g <$> (l ≫= f) = l ≫= (λ x, g <$> f x).
Proof.
  induction l as [|x l IH]; [done|].
  cbn [mbind list_bind]. rewrite fmap_app. f_equal. exact IH.
Qed.

(** The wrapped ids of stroke_tokenizer.py are the specified ones; no lookup
    raises and none yields [None]. *)
Lemma stroke_wrapped_ok (ml : Z) (c2s : gmap (list N) (list N))
    (tk : Stroke.StrokeTokenizer) (text : list N) :
  Stroke.new ml c2s = Ok tk →
  Stroke.wrapped tk text
    = Ok (Some <$> GraphemicSpec.wrapped_ids c2s (Stroke.stroke2id tk) text).
Proof.
  intros Hnew. unfold Stroke.wrapped.
  rewrite (for_each_pure _ _ _ (stroke_id_ok ml c2s tk Hnew)), bind_Ok.
  rewrite stroke_text_to_strokes, fmap_bind_list.
  pose proof Hnew as Hnew'. rewrite stroke_new in Hnew'. injection Hnew' as <-.
  cbn [Stroke.stroke2id Stroke.char2stroke].
  destruct (numbers_reserved _ _ (build_stroke2id_numbers c2s)) as ((_ & _ & -> & ->) & _).
  unfold GraphemicSpec.wrapped_ids. rewrite !fmap_app. reflexivity.
Qed.

Lemma zhtext_stroke_idx_ok (ml : Z) (c2s : gmap (list N) (list N)) (s : list N) :
  ZhText.stroke_idx (ZhText.new ml c2s) s
    = Ok (GraphemicSpec.symbol_id (ZhText.build_stroke2idx c2s) s).
Proof.
  unfold ZhText.stroke_idx. cbn [ZhText.stroke2idx ZhText.new ZhText._build_stroke_vocab].
  destruct (numbers_reserved _ _ (build_stroke2idx_numbers c2s)) as ((_ & Hunk & _) & _).
  unfold getitem. rewrite Hunk. reflexivity.
Qed.

(** The wrapped ids of zh2text.py; no lookup raises. *)
Lemma zhtext_wrapped_ok (ml : Z) (c2s : gmap (list N) (list N)) (text : list N) :
  ZhText.wrapped (ZhText.new ml c2s) text
    = Ok ([2] ++ (GraphemicSpec.symbol_id (ZhText.build_stroke2idx c2s)
                    <$> ZhText.text_to_strokes (ZhText.new ml c2s) text) ++ [3]).
Proof.
  unfold ZhText.wrapped.
  rewrite (for_each_pure _ _ _ (zhtext_stroke_idx_ok ml c2s)), bind_Ok.
  cbn [ZhText.stroke2idx ZhText.new ZhText._build_stroke_vocab].
  destruct (numbers_reserved _ _ (build_stroke2idx_numbers c2s)) as ((_ & _ & Hcls & Hsep) & _).
  unfold getitem. rewrite Hcls, Hsep. reflexivity.
Qed.

(** A symbol that is not the string "[PAD]" never gets the id of PAD. *)
Lemma symbol_id_nonzero (St : list (list N)) (m : gmap (list N) nat) (s : list N) :
  VocabSpec.numbers (special_tokens ++ St) m → s ≠ pad_token →
  GraphemicSpec.symbol_id m s ≠ 0.
Proof.
  intros Hm Hs. unfold GraphemicSpec.symbol_id.
  destruct (m !! s) as [i|] eqn:E; cbn; [|done].
  intros ->. apply Hm in E.
  change ((special_tokens ++ St) !! 0) with (Some pad_token) in E. congruence.
Qed.

(** The ids of a character: one per symbol of its entry, each 4 or more, or
    the single id 1. *)
Lemma char_ids_present (c2s : gmap (list N) (list N)) (ch : N) (v : list N) :
  c2s !! [ch] = Some v →
  GraphemicSpec.char_ids c2s (Stroke.build_stroke2id c2s) ch
    = (λ c, GraphemicSpec.symbol_id (Stroke.build_stroke2id c2s) [c]) <$> v ∧
  length (GraphemicSpec.char_ids c2s (Stroke.build_stroke2id c2s) ch) = length v ∧
  Forall (λ i, 4 ≤ i) (GraphemicSpec.char_ids c2s (Stroke.build_stroke2id c2s) ch).
Proof.
  intros Hv. unfold GraphemicSpec.char_ids, GraphemicSpec.char_symbols. rewrite Hv.
  unfold chars. rewrite <- list_fmap_compose. split_and!; [done|by rewrite length_fmap|].
  apply Forall_fmap, Forall_forall. intros c Hc.
  destruct (numbers_reserved _ _ (build_stroke2id_numbers c2s)) as (_ & _ & Hd).
  destruct (Hd [c]) as (i & Hi & Hge).
  - apply sorted_elem_of, elem_of_stroke_set. by exists [ch], v, c.
  - unfold compose, GraphemicSpec.symbol_id. by rewrite Hi.
Qed.

Lemma char_ids_absent (c2s : gmap (list N) (list N)) (ch : N) :
  c2s !! [ch] = None →
  GraphemicSpec.char_ids c2s (Stroke.build_stroke2id c2s) ch = [1].
Proof.
  intros Hv. unfold GraphemicSpec.char_ids, GraphemicSpec.char_symbols. rewrite Hv.
  cbn [fmap list_fmap]. unfold GraphemicSpec.symbol_id.
  destruct (numbers_reserved _ _ (build_stroke2id_numbers c2s)) as ((_ & -> & _) & _).
  done.
Qed.

(** ** Loading the decomposition table *)

Lemma split_go_nonempty (cur s : list N) : Forall (λ f, f ≠ []) (split_go cur s).
Proof.
  revert cur. induction s as [|c s IH]; intros cur; cbn [split_go].
  - destruct cur; [constructor|]. by constructor.
  - destruct (isspace c); [|apply IH].
    destruct cur; [apply IH|]. constructor; [done|apply IH].
Qed.

(** The fields [s.split()] returns are never empty. *)
Lemma split_nonempty (s : list N) : Forall (λ f, f ≠ []) (split s).
Proof. apply split_go_nonempty. Qed.

(** A line with fewer than two fields changes neither loader's mapping. *)
Lemma load_line_short (m : gmap (list N) (list N)) (line : list N) :
  length (split (strip line)) < 2 →
  Stroke.load_line m line = m ∧ ZhText.load_line m line = m.
Proof.
  intros Hlen. unfold Stroke.load_line, ZhText.load_line.
  destruct (split (strip line)) as [|p0 [|p1 ps]] eqn:E; cbn in Hlen; try lia.
  - split; [done|]. destruct (strip line); [done|]. by destruct (startswith _ _).
  - split; [done|]. destruct (strip line); [done|]. by destruct (startswith _ _).
Qed.

(** A blank line changes neither loader's mapping. *)
Lemma load_line_blank (m : gmap (list N) (list N)) (line : list N) :
  strip line = [] → Stroke.load_line m line = m ∧ ZhText.load_line m line = m.
Proof. intros E. unfold Stroke.load_line, ZhText.load_line. by rewrite E. Qed.

(** On a line that does not start with '#' once stripped the two loaders do
    the same. *)
Lemma load_line_agree (m : gmap (list N) (list N)) (line : list N) :
  startswith (strip line) (py "#") = false →
  ZhText.load_line m line = Stroke.load_line m line.
Proof.
  intros Hc. unfold Stroke.load_line, ZhText.load_line.
  destruct (strip line) as [|c r] eqn:E; [done|]. by rewrite Hc.
Qed.

(** zh2text.py drops every line that starts with '#' once stripped. *)
Lemma zhtext_load_line_comment (m : gmap (list N) (list N)) (line : list N) :
  startswith (strip line) (py "#") = true → ZhText.load_line m line = m.
Proof.
  intros Hc. unfold ZhText.load_line. destruct (strip line); [done|]. by rewrite Hc.
Qed.

Lemma foldl_load_line_agree (lines : list (list N)) (m : gmap (list N) (list N)) :
  Forall (λ line, startswith (strip line) (py "#") = false) lines →
  foldl ZhText.load_line m lines = foldl Stroke.load_line m lines.
Proof.
  intros Hall. revert m. induction Hall as [|line lines Hc _ IH]; intros m; [done|].
  cbn [foldl]. by rewrite load_line_agree, IH.
Qed.

(** On a file without '#' lines the two loaders return the same mapping. *)
Lemma loaders_agree_without_comments (fs : gmap (list N) (list N)) (path content : list N) :
  fs !! path = Some content →
  Forall (λ line, startswith (strip line) (py "#") = false) (readlines content) →
  ZhText._load_zh2text fs path = (Stroke._load_zh2text fs path).2.
Proof.
  intros Hf Hall. unfold ZhText._load_zh2text, Stroke._load_zh2text, open_lines.
  rewrite Hf, bind_Ok. cbn [snd]. by rewrite foldl_load_line_agree.
Qed.

(** A missing file: stroke_tokenizer.py warns and goes on with the empty
    table, zh2text.py raises. *)
Lemma load_missing (fs : gmap (list N) (list N)) (path : list N) :
  fs !! path = None →
  Stroke._load_zh2text fs path
    = ([py "[Warning] file " ++ path ++ py " not found."], Ok ∅) ∧
  ZhText._load_zh2text fs path = Raise (FileNotFoundError path).
Proof.
  intros Hf. unfold ZhText._load_zh2text, Stroke._load_zh2text, open_lines. by rewrite Hf.
Qed.

Lemma foldl_load_line_nonempty (lines : list (list N)) (m : gmap (list N) (list N)) :
  map_Forall (λ _ v, v ≠ []) m →
  map_Forall (λ _ v, v ≠ []) (foldl Stroke.load_line m lines).
Proof.
  revert m. induction lines as [|line lines IH]; intros m Hm; [done|].
  cbn [foldl]. apply IH. unfold Stroke.load_line.
  pose proof (split_nonempty (strip line)) as Hne.
  destruct (split (strip line)) as [|p0 [|p1 ps]]; [done|done|].
  apply map_Forall_insert_2; [|done].
  apply Forall_cons in Hne as [_ Hne]. by apply Forall_cons in Hne as [Hne _].
Qed.

(** Every entry of a table that stroke_tokenizer.py loaded holds at least one
    symbol. *)
Lemma stroke_load_values_nonempty (fs : gmap (list N) (list N)) (path k v : list N)
    (c2s : gmap (list N) (list N)) :
  (Stroke._load_zh2text fs path).2 = Ok c2s → c2s !! k = Some v → v ≠ [].
Proof.
  unfold Stroke._load_zh2text. destruct (open_lines fs path) as [lines|e].
  - cbn [snd]. intros [= <-] Hk. eapply (foldl_load_line_nonempty lines ∅); [|exact Hk].
    apply map_Forall_empty.
  - destruct e; cbn [snd]; intros [= <-]. by rewrite lookup_empty.
Qed.

(** With a loaded table every character of a text contributes at least one
    id in stroke_tokenizer.py. *)
Lemma stroke_char_ids_nonempty (fs : gmap (list N) (list N)) (path : list N)
    (c2s : gmap (list N) (list N)) (ch : N) :
  (Stroke._load_zh2text fs path).2 = Ok c2s →
  0 < length (GraphemicSpec.char_ids c2s (Stroke.build_stroke2id c2s) ch).
Proof.
  intros Hload. destruct (c2s !! [ch]) as [v|] eqn:E.
  - destruct (char_ids_present c2s ch v E) as (_ & -> & _).
    apply (stroke_load_values_nonempty fs path _ _ c2s Hload) in E.
    destruct v; [done|cbn; lia].
  - rewrite (char_ids_absent c2s ch E). cbn. lia.
Qed.

(** ** The encoders *)

Lemma take_to_nat_ge {A} (M : Z) (l : list A) :
  (0 ≤ M)%Z →
  (if (M <? Z.of_nat (length l))%Z then slice_to M l else l) = take (Z.to_nat M) l.
Proof.
  intros HM. destruct (Z.ltb_spec M (Z.of_nat (length l))).
  - by apply slice_to_nonneg.
  - symmetry. apply take_ge. lia.
Qed.

Lemma mask_nonzero (pad : nat) (l : list nat) :
  Forall (λ i, i ≠ pad) l →
  map (λ i, if i =? pad then 0 else 1) l = replicate (length l) 1.
Proof.
  induction 1 as [|i l Hi _ IH]; [done|].
  cbn. rewrite IH. by destruct (Nat.eqb_spec i pad).
Qed.

Lemma mask_sum_encoded (enc : Encoding) (w : list nat) (n k : nat) :
  EncoderSpec.encoded enc w n k →
  EncoderSpec.mask_sum (attention_mask enc) = min (length w) n.
Proof.
  intros [_ Hm]. unfold EncoderSpec.mask_sum. rewrite Hm.
  cbn [mbind list_bind id]. rewrite app_nil_r, sum_list_with_app, !sum_list_replicate.
  rewrite length_take. lia.
Qed.

(** The graphemic ids never hold the id of PAD. *)
Lemma stroke_wrapped_ids_nonzero (c2s : gmap (list N) (list N)) (text : list N) :
  Forall (λ i, i ≠ 0) (GraphemicSpec.wrapped_ids c2s (Stroke.build_stroke2id c2s) text).
Proof.
  unfold GraphemicSpec.wrapped_ids. apply Forall_app. split; [by repeat constructor|].
  apply Forall_app. split; [|by repeat constructor].
  apply Forall_forall. intros i (ch & Hi & _)%list_elem_of_bind.
  unfold GraphemicSpec.char_ids in Hi. apply list_elem_of_fmap in Hi as (s & -> & Hs).
  apply (symbol_id_nonzero _ _ _ (build_stroke2id_numbers c2s)).
  unfold GraphemicSpec.char_symbols in Hs. destruct (c2s !! [ch]) as [v|].
  - apply elem_of_chars in Hs as (c & -> & _). done.
  - apply list_elem_of_singleton in Hs as ->. done.
Qed.

Lemma zhtext_wrapped_nonzero (ml : Z) (c2s : gmap (list N) (list N)) (text : list N) :
  ∃ w, ZhText.wrapped (ZhText.new ml c2s) text = Ok w ∧ 2 ≤ length w ∧
       Forall (λ i, i ≠ 0) w ∧ ∃ body, w = [2] ++ body ++ [3].
Proof.
  eexists. split; [apply zhtext_wrapped_ok|]. split; [|split; [|by eexists]].
  { rewrite !length_app. cbn. lia. }
  apply Forall_app. split; [by repeat constructor|].
  apply Forall_app. split; [|by repeat constructor].
  apply Forall_fmap, Forall_forall. intros s Hs. cbn.
  apply (symbol_id_nonzero _ _ _ (build_stroke2idx_numbers c2s)).
  rewrite zhtext_text_to_strokes in Hs.
  apply list_elem_of_bind in Hs as (ch & (c & -> & _)%elem_of_chars & _). done.
Qed.

(** The phonetic ids are wrapped between CLS (2) and SEP (3). *)
Lemma pinyin_wrap_ok (ml : Z) (tk : Pinyin.PinyinTokenizer) (ids : list nat) :
  Pinyin.__init__ ml = Ok tk → Pinyin.wrap tk ids = Ok ([2] ++ ids ++ [3]).
Proof.
  rewrite pinyin_init. intros [= <-]. unfold Pinyin.wrap. cbn [Pinyin.token2id].
  destruct pinyin_special_ids as (_ & _ & -> & ->). reflexivity.
Qed.

Section PinyinCall.
Variable unicode_digit : char → bool.
Variable pinyin : list N → list (list (list N)).

Lemma pinyin_encode_ok (ml : Z) (tk : Pinyin.PinyinTokenizer) (text : list N) :
  Pinyin.__init__ ml = Ok tk →
  ∃ ids, Pinyin.encode unicode_digit pinyin tk text = Ok ids ∧ 0 < length ids.
Proof.
  intros Hinit. unfold Pinyin.encode, Pinyin.encode_syllables.
  rewrite (encode_loop_ok unicode_digit ml tk _ [] Hinit), bind_Ok. cbn [app].
  destruct (_ ≫= _) as [|i ids].
  - rewrite pinyin_init in Hinit. injection Hinit as <-. cbn [Pinyin.token2id].
    destruct pinyin_special_ids as (_ & -> & _). exists [1]. split; [done|cbn; lia].
  - exists (i :: ids). split; [done|cbn; lia].
Qed.

(** [__call__] of the phonetic tokenizer with truncation: the wrapped ids cut
    to [max_len], padded up to [max_len] when [padding] asks for it. *)
Lemma pinyin_call_ok (ml : Z) (tk : Pinyin.PinyinTokenizer) (text : list N)
    (mla : option Z) (padding : list N) :
  Pinyin.__init__ ml = Ok tk → (0 ≤ or_default mla ml)%Z →
  ∃ ids enc,
    Pinyin.encode unicode_digit pinyin tk text = Ok ids ∧
    Pinyin.__call__ unicode_digit pinyin tk text mla padding true = Ok enc ∧
    EncoderSpec.encoded enc ([2] ++ ids ++ [3]) (Z.to_nat (or_default mla ml))
      (if bool_decide (padding = py "max_length")
       then Z.to_nat (or_default mla ml) - length ([2] ++ ids ++ [3]) else 0).
Proof.
  intros Hinit HM. destruct (pinyin_encode_ok ml tk text Hinit) as (ids & Henc & _).
  exists ids. unfold Pinyin.__call__. rewrite Henc, bind_Ok, (pinyin_wrap_ok ml tk ids Hinit), bind_Ok.
  pose proof Hinit as Hinit'. rewrite pinyin_init in Hinit'. injection Hinit' as <-.
  cbn [Pinyin.max_length Pinyin.token2id].
  set (M := or_default mla ml) in *. set (w := [2] ++ ids ++ [3]).
  rewrite slice_to_nonneg, repeat_list_of_nat by done.
  pose proof (length_take w (Z.to_nat M)) as Hlen.
  destruct (bool_decide (padding = py "max_length")); cbn [andb].
  - destruct (Z.ltb_spec (Z.of_nat (length (take (Z.to_nat M) w))) M).
    + destruct pinyin_special_ids as (-> & _). rewrite bind_Ok.
      eexists. split; [reflexivity|]. split; [reflexivity|].
      unfold EncoderSpec.encoded, repeat_list. cbn [EncoderSpec.rows input_ids attention_mask].
      replace (Z.to_nat (M - _)) with (Z.to_nat M - length w) by lia. split; reflexivity.
    + eexists. split; [reflexivity|]. split; [reflexivity|].
      unfold EncoderSpec.encoded. cbn [EncoderSpec.rows input_ids attention_mask].
      replace (Z.to_nat M - length w) with 0 by lia. cbn [replicate].
      rewrite !app_nil_r. split; reflexivity.
  - eexists. split; [reflexivity|]. split; [reflexivity|].
    unfold EncoderSpec.encoded. cbn [EncoderSpec.rows input_ids attention_mask replicate].
    rewrite !app_nil_r. split; reflexivity.
Qed.

End PinyinCall.

Lemma mapM_id_Some {A} (l : list A) : mapM id (Some <$> l) = Some l.
Proof. by apply mapM_fmap_Some. Qed.

(** One loop iteration of stroke_tokenizer.py with truncation. *)
Lemma stroke_encode_one (ml : Z) (c2s : gmap (list N) (list N))
    (tk : Stroke.StrokeTokenizer) (M : Z) (text : list N) :
  Stroke.new ml c2s = Ok tk → (0 ≤ M)%Z →
  Stroke.encode_one tk true M text
    = Ok (Some <$> take (Z.to_nat M)
            (GraphemicSpec.wrapped_ids c2s (Stroke.build_stroke2id c2s) text)).
Proof.
  intros Hnew HM. unfold Stroke.encode_one.
  rewrite (stroke_wrapped_ok ml c2s tk text Hnew), bind_Ok.
  rewrite stroke_new in Hnew. injection Hnew as <-. cbn [Stroke.stroke2id andb].
  rewrite take_to_nat_ge by done. by rewrite fmap_take.
Qed.

(** [__call__] of stroke_tokenizer.py on one string with truncation: the
    wrapped ids cut to [max_length]; a batch of one is never padded. *)
Lemma stroke_call_single (ml : Z) (c2s : gmap (list N) (list N))
    (tk : Stroke.StrokeTokenizer) (text : list N) (rt : option (list N))
    (padding : bool) (mla : option Z) :
  Stroke.new ml c2s = Ok tk → (0 ≤ default ml mla)%Z →
  ∃ enc,
    Stroke.__call__ tk (Stroke.Text text) rt padding true mla = Ok enc ∧
    EncoderSpec.encoded enc
      (GraphemicSpec.wrapped_ids c2s (Stroke.build_stroke2id c2s) text)
      (Z.to_nat (default ml mla)) 0.
Proof.
  intros Hnew HM. unfold Stroke.__call__. cbn [for_each].
  pose proof Hnew as Hnew'. rewrite stroke_new in Hnew'. injection Hnew' as Htk.
  assert (Stroke.max_length tk = ml) as -> by (by rewrite <- Htk).
  rewrite (stroke_encode_one ml c2s tk _ text Hnew HM), !bind_Ok.
  assert (getitem (Stroke.stroke2id tk) pad_token = Ok 0) as Hpad.
  { rewrite <- Htk. cbn [Stroke.stroke2id].
    destruct (numbers_reserved _ _ (build_stroke2id_numbers c2s)) as ((Hp & _) & _).
    unfold getitem. by rewrite Hp. }
  set (w := GraphemicSpec.wrapped_ids c2s (Stroke.build_stroke2id c2s) text).
  set (row := take (Z.to_nat (default ml mla)) w).
  assert (torch_tensor [Some <$> row] = Ok [row]) as Htensor.
  { unfold torch_tensor. cbn [forallb]. rewrite Nat.eqb_refl. cbn [andb].
    cbn [mapM]. rewrite mapM_id_Some. reflexivity. }
  assert (map (λ i, if i =? 0 then 0 else 1) row = replicate (length row) 1) as Hmask.
  { apply mask_nonzero. apply Forall_take, stroke_wrapped_ids_nonzero. }
  destruct padding.
  - rewrite Hpad, bind_Ok. unfold max_len_of. rewrite bind_Ok.
    cbn [fmap list_fmap max_list map mret result_ret].
    rewrite Nat.max_0_r, Z.sub_diag. unfold repeat_list at 1. cbn [Z.to_nat replicate].
    rewrite app_nil_r, bind_Ok, Htensor, bind_Ok. rewrite bind_Ok. cbn [map]. rewrite Hmask.
    eexists. split; [reflexivity|]. unfold EncoderSpec.encoded.
    cbn [EncoderSpec.rows input_ids attention_mask replicate]. by rewrite !app_nil_r.
  - cbn [mret result_ret]. rewrite bind_Ok, Htensor, bind_Ok, Hpad, bind_Ok. cbn [map].
    rewrite Hmask.
    eexists. split; [reflexivity|]. unfold EncoderSpec.encoded.
    cbn [EncoderSpec.rows input_ids attention_mask replicate]. by rewrite !app_nil_r.
Qed.

(** [__call__] of zh2text.py with truncation: the wrapped ids cut to
    [max_len], padded up to [max_len] when [padding] asks for it. *)
Lemma zhtext_call_ok (ml : Z) (c2s : gmap (list N) (list N)) (text : list N)
    (mla : option Z) (padding : list N) (rt : option (list N)) (w : list nat) :
  ZhText.wrapped (ZhText.new ml c2s) text = Ok w → (0 ≤ or_default mla ml)%Z →
  ∃ enc,
    ZhText.__call__ (ZhText.new ml c2s) text mla padding true rt = Ok enc ∧
    EncoderSpec.encoded enc w (Z.to_nat (or_default mla ml))
      (if bool_decide (padding = py "max_length")
       then Z.to_nat (or_default mla ml) - length w else 0).
Proof.
  intros Hw HM. unfold ZhText.__call__. rewrite Hw, bind_Ok.
  cbn [ZhText.max_length ZhText.new ZhText._build_stroke_vocab ZhText.stroke2idx andb].
  set (M := or_default mla ml) in *.
  rewrite take_to_nat_ge, repeat_list_of_nat by done.
  pose proof (length_take w (Z.to_nat M)) as Hlen.
  assert (∀ row, EncoderSpec.rows (ZhText.tensor_of rt row) = [row]) as Hrows.
  { intros row. unfold ZhText.tensor_of. by destruct (bool_decide _). }
  destruct (bool_decide (padding = py "max_length")).
  - destruct (numbers_reserved _ _ (build_stroke2idx_numbers c2s)) as ((Hp & _) & _).
    unfold getitem. rewrite Hp, !bind_Ok. cbn [mret result_ret].
    eexists. split; [reflexivity|]. unfold EncoderSpec.encoded. cbn [input_ids attention_mask].
    rewrite !Hrows. unfold repeat_list.
    replace (Z.to_nat (M - _)) with (Z.to_nat M - length w) by lia. done.
  - cbn [mret result_ret]. rewrite bind_Ok.
    eexists. split; [reflexivity|]. unfold EncoderSpec.encoded. cbn [input_ids attention_mask].
    rewrite !Hrows. cbn [replicate]. by rewrite !app_nil_r.
Qed.

(** A sequence longer than the limit is cut to the limit and gets no padding;
    one that is longer by one loses its last element, SEP. *)
Lemma encoded_truncated (enc : Encoding) (body : list nat) (M : Z) (k : nat) :
  EncoderSpec.encoded enc ([2] ++ body ++ [3]) (Z.to_nat M) k →
  k ≤ Z.to_nat M - length ([2] ++ body ++ [3]) →
  (0 ≤ M < Z.of_nat (length ([2] ++ body ++ [3])%nat))%Z →
  EncoderSpec.rows (input_ids enc) = [take (Z.to_nat M) ([2] ++ body ++ [3])] ∧
  length (take (Z.to_nat M) ([2] ++ body ++ [3])) = Z.to_nat M ∧
  (Z.of_nat (length ([2] ++ body ++ [3])%nat) = (M + 1)%Z →
   EncoderSpec.rows (input_ids enc) = [[2] ++ body]).
Proof.
  intros [Hids _] Hk HM. replace k with 0 in Hids by lia.
  cbn [replicate] in Hids. rewrite app_nil_r in Hids.
  split; [exact Hids|]. split; [rewrite length_take; lia|].
  intros Hlen. rewrite Hids. f_equal.
  rewrite (app_assoc [2] body [3]). apply take_app_length'.
  rewrite !length_app in Hlen. rewrite length_app. cbn [length] in *. lia.
Qed.

(** C6.  With truncation, a wrapped sequence [CLS] ++ ids ++ [SEP] that is
    longer than the length limit is cut to its prefix of that length, in the
    phonetic encoder and in both graphemic ones, and the output has exactly
    that length; when it is longer by one, exactly the trailing SEP is
    dropped. *)
Theorem truncation_keeps_prefix :
  (∀ (unicode_digit : N → bool) (pinyin : list N → list (list (list N)))
     (ml : Z) (text : list N) (mla : option Z) (padding : list N),
     ∃ tk ids,
       Pinyin.__init__ ml = Ok tk ∧
       Pinyin.encode unicode_digit pinyin tk text = Ok ids ∧
       ((0 ≤ or_default mla ml < Z.of_nat (length ([2] ++ ids ++ [3])%nat))%Z →
        ∃ enc,
          Pinyin.__call__ unicode_digit pinyin tk text mla padding true = Ok enc ∧
          EncoderSpec.rows (input_ids enc)
            = [take (Z.to_nat (or_default mla ml)) ([2] ++ ids ++ [3])] ∧
          length (take (Z.to_nat (or_default mla ml)) ([2] ++ ids ++ [3]))
            = Z.to_nat (or_default mla ml) ∧
          (Z.of_nat (length ([2] ++ ids ++ [3])%nat) = (or_default mla ml + 1)%Z →
           EncoderSpec.rows (input_ids enc) = [[2] ++ ids]))) ∧
  (∀ (ml : Z) (c2s : gmap (list N) (list N)) (text : list N) (rt : option (list N))
     (padding : bool) (mla : option Z),
     ∃ tk body,
       Stroke.new ml c2s = Ok tk ∧
       Stroke.wrapped tk text = Ok (Some <$> [2] ++ body ++ [3]) ∧
       ((0 ≤ default ml mla < Z.of_nat (length ([2] ++ body ++ [3])%nat))%Z →
        ∃ enc,
          Stroke.__call__ tk (Stroke.Text text) rt padding true mla = Ok enc ∧
          EncoderSpec.rows (input_ids enc)
            = [take (Z.to_nat (default ml mla)) ([2] ++ body ++ [3])] ∧
          length (take (Z.to_nat (default ml mla)) ([2] ++ body ++ [3]))
            = Z.to_nat (default ml mla) ∧
          (Z.of_nat (length ([2] ++ body ++ [3])%nat) = (default ml mla + 1)%Z →
           EncoderSpec.rows (input_ids enc) = [[2] ++ body]))) ∧
  (∀ (ml : Z) (c2s : gmap (list N) (list N)) (text : list N) (mla : option Z)
     (padding : list N) (rt : option (list N)),
     ∃ body,
       ZhText.wrapped (ZhText.new ml c2s) text = Ok ([2] ++ body ++ [3]) ∧
       ((0 ≤ or_default mla ml < Z.of_nat (length ([2] ++ body ++ [3])%nat))%Z →
        ∃ enc,
          ZhText.__call__ (ZhText.new ml c2s) text mla padding true rt = Ok enc ∧
          EncoderSpec.rows (input_ids enc)
            = [take (Z.to_nat (or_default mla ml)) ([2] ++ body ++ [3])] ∧
          length (take (Z.to_nat (or_default mla ml)) ([2] ++ body ++ [3]))
            = Z.to_nat (or_default mla ml) ∧
          (Z.of_nat (length ([2] ++ body ++ [3])%nat) = (or_default mla ml + 1)%Z →
           EncoderSpec.rows (input_ids enc) = [[2] ++ body]))).
Proof.
  split_and!.
  - intros ud pinyin ml text mla padding.
    destruct (pinyin_encode_ok ud pinyin ml _ text (pinyin_init ml)) as (ids & Henc & _).
    eexists; exists ids. split; [apply pinyin_init|]. split; [exact Henc|]. intros HM.
    destruct (pinyin_call_ok ud pinyin ml _ text mla padding (pinyin_init ml))
      as (ids' & enc & Henc' & Hcall & Henced); [lia|].
    rewrite Henc in Henc'. injection Henc' as <-.
    exists enc. split; [exact Hcall|].
    eapply encoded_truncated; [exact Henced| |exact HM].
    destruct (bool_decide _); lia.
  - intros ml c2s text rt padding mla.
    eexists; exists (text ≫= GraphemicSpec.char_ids c2s (Stroke.build_stroke2id c2s)).
    split; [apply stroke_new|].
    split; [apply (stroke_wrapped_ok ml c2s _ text (stroke_new ml c2s))|]. intros HM.
    destruct (stroke_call_single ml c2s _ text rt padding mla (stroke_new ml c2s))
      as (enc & Hcall & Henced); [lia|].
    exists enc. split; [exact Hcall|].
    eapply encoded_truncated; [exact Henced|lia|exact HM].
  - intros ml c2s text mla padding rt.
    destruct (zhtext_wrapped_nonzero ml c2s text) as (w & Hw & _ & _ & body & ->).
    exists body. split; [exact Hw|]. intros HM.
    destruct (zhtext_call_ok ml c2s text mla padding rt _ Hw) as (enc & Hcall & Henced); [lia|].
    exists enc. split; [exact Hcall|].
    eapply encoded_truncated; [exact Henced| |exact HM].
    destruct (bool_decide _); lia.
Qed.

Lemma Ok_Some_inj (a b : list nat) : Ok (Some <$> a) = Ok (Some <$> b) → a = b.
Proof.
  intros H. apply (inj (fmap Some)).
  exact (f_equal (λ r, match r with Ok l => l | Raise _ => [] end) H).
Qed.

Lemma truncation_keeps_prefix_witness :
  ∃ tk enc,
    Stroke.new 3 ∅ = Ok tk ∧
    Stroke.__call__ tk (Stroke.Text (py "ab")) None true true None = Ok enc ∧
    EncoderSpec.rows (input_ids enc) = [[2; 1; 1]].
Proof.
  destruct truncation_keeps_prefix as (_ & HS & _).
  destruct (HS 3%Z ∅ (py "ab") None true None) as (tk & body & Hnew & Hw & Htr).
  assert (body = [1; 1]) as ->.
  { assert (Stroke.wrapped tk (py "ab") = Ok (Some <$> [2; 1; 1; 3])) as Hw'.
    { rewrite stroke_new in Hnew. injection Hnew as <-. vm_compute. reflexivity. }
    rewrite Hw' in Hw. apply Ok_Some_inj in Hw.
    injection Hw as Hw. by apply (app_inj_tail [1; 1] body 3 3) in Hw as [<- _]. }
  destruct Htr as (enc & Hcall & _ & _ & Hrows); [cbn; lia|].
  exists tk, enc. split; [exact Hnew|]. split; [exact Hcall|]. apply Hrows. cbn. lia.
Defined.

(** C7.  On one text and with truncation, both graphemic encoders return a
    result for every table, text and non-negative length limit: the wrapped
    ids, none of which is the PAD id, cut to the limit and followed by the
    padding; the mask is 1 on the former and 0 on the latter, so its sum is
    the minimum of the wrapped length and the limit. *)
Theorem graphemic_mask_sum :
  (∀ (ml : Z) (c2s : gmap (list N) (list N)) (text : list N) (rt : option (list N))
     (padding : bool) (mla : option Z),
     (0 ≤ default ml mla)%Z →
     ∃ tk w enc k,
       Stroke.new ml c2s = Ok tk ∧
       Stroke.wrapped tk text = Ok (Some <$> w) ∧
       Forall (λ i, i ≠ 0) w ∧
       Stroke.__call__ tk (Stroke.Text text) rt padding true mla = Ok enc ∧
       EncoderSpec.encoded enc w (Z.to_nat (default ml mla)) k ∧
       Z.of_nat (EncoderSpec.mask_sum (attention_mask enc))
         = Z.min (Z.of_nat (length w)) (default ml mla)) ∧
  (∀ (ml : Z) (c2s : gmap (list N) (list N)) (text : list N) (mla : option Z)
     (padding : list N) (rt : option (list N)),
     (0 ≤ or_default mla ml)%Z →
     ∃ w enc k,
       ZhText.wrapped (ZhText.new ml c2s) text = Ok w ∧
       Forall (λ i, i ≠ 0) w ∧
       ZhText.__call__ (ZhText.new ml c2s) text mla padding true rt = Ok enc ∧
       EncoderSpec.encoded enc w (Z.to_nat (or_default mla ml)) k ∧
       Z.of_nat (EncoderSpec.mask_sum (attention_mask enc))
         = Z.min (Z.of_nat (length w)) (or_default mla ml)).
Proof.
  split.
  - intros ml c2s text rt padding mla HM.
    destruct (stroke_call_single ml c2s _ text rt padding mla (stroke_new ml c2s) HM)
      as (enc & Hcall & Henced).
    eexists; eexists; exists enc, 0. split_and!.
    + apply stroke_new.
    + apply (stroke_wrapped_ok ml c2s _ text (stroke_new ml c2s)).
    + apply stroke_wrapped_ids_nonzero.
    + exact Hcall.
    + exact Henced.
    + rewrite (mask_sum_encoded _ _ _ _ Henced). cbn [Stroke.stroke2id]. lia.
  - intros ml c2s text mla padding rt HM.
    destruct (zhtext_wrapped_nonzero ml c2s text) as (w & Hw & _ & Hnz & _).
    destruct (zhtext_call_ok ml c2s text mla padding rt w Hw HM) as (enc & Hcall & Henced).
    exists w, enc. eexists. split_and!; [exact Hw|exact Hnz|exact Hcall|exact Henced|].
    rewrite (mask_sum_encoded _ _ _ _ Henced). lia.
Qed.

Lemma graphemic_mask_sum_witness :
  (∃ tk enc,
     Stroke.new 8 ∅ = Ok tk ∧
     Stroke.__call__ tk (Stroke.Text (py "ab")) None true true None = Ok enc ∧
     EncoderSpec.mask_sum (attention_mask enc) = 4) ∧
  (∃ enc,
     ZhText.__call__ (ZhText.new 8 ∅) (py "a") None (py "max_length") true None = Ok enc ∧
     EncoderSpec.mask_sum (attention_mask enc) = 7).
Proof.
  destruct graphemic_mask_sum as (HS & HZ). split.
  - destruct (HS 8%Z ∅ (py "ab") None true None) as (tk & w & enc & k & Hnew & Hw & _ & Hcall & _ & Hsum);
      [cbn; lia|].
    exists tk, enc. split; [exact Hnew|]. split; [exact Hcall|].
    assert (Stroke.wrapped tk (py "ab") = Ok (Some <$> [2; 1; 1; 3])) as Hw'.
    { rewrite stroke_new in Hnew. injection Hnew as <-. vm_compute. reflexivity. }
    rewrite Hw' in Hw. apply Ok_Some_inj in Hw. subst w.
    cbn in Hsum. lia.
  - destruct (HZ 8%Z ∅ (py "a") None (py "max_length") None) as (w & enc & k & Hw & _ & Hcall & _ & Hsum);
      [cbn; lia|].
    exists enc. split; [exact Hcall|].
    assert (ZhText.wrapped (ZhText.new 8 ∅) (py "a") = Ok [2; 1; 1; 1; 1; 1; 3]) as Hw'
      by (vm_compute; reflexivity).
    rewrite Hw' in Hw. injection Hw as <-. cbn in Hsum. lia.
Defined.

(** ** Where the two graphemic classes part *)

Lemma wrapped_ids_empty_table (s2i : gmap (list N) nat) (text : list N) :
  GraphemicSpec.wrapped_ids ∅ s2i text
    = [2] ++ replicate (length text) (GraphemicSpec.symbol_id s2i unk_token) ++ [3].
Proof.
  unfold GraphemicSpec.wrapped_ids. do 2 f_equal.
  induction text as [|ch text IH]; [done|].
  cbn [mbind list_bind length replicate]. fold (text ≫= GraphemicSpec.char_ids ∅ s2i).
  rewrite IH. unfold GraphemicSpec.char_ids, GraphemicSpec.char_symbols.
  by rewrite lookup_empty.
Qed.

(** C4.  When the table file does not exist, stroke_tokenizer.py prints its
    two warnings, builds the tokenizer over the empty table and encodes every
    character as UNK (id 1) between CLS and SEP; zh2text.py has no handler
    around [open] and its construction raises [FileNotFoundError]. *)
Theorem missing_table_file (fs : gmap (list N) (list N)) (dp path : list N) (ml : Z) :
  fs !! path = None →
  (∃ tk,
     Stroke.__init__ fs dp (Some path) ml
       = ([[91; 35686; 21578; 93; 32; 26410; 25214; 21040; 32]%N ++ path;
           py "[Warning] file " ++ path ++ py " not found."], Ok tk) ∧
     Stroke.char2stroke tk = ∅ ∧
     ∀ text : list N,
       Stroke.wrapped tk text = Ok (Some <$> [2] ++ replicate (length text) 1 ++ [3]) ∧
       ((0 ≤ ml)%Z →
        ∃ enc,
          Stroke.__call__ tk (Stroke.Text text) None true true None = Ok enc ∧
          EncoderSpec.encoded enc ([2] ++ replicate (length text) 1 ++ [3]) (Z.to_nat ml) 0)) ∧
  ZhText.__init__ fs path ml = Raise (FileNotFoundError path).
Proof.
  intros Hf. destruct (load_missing fs path Hf) as [HS HZ]. split.
  - eexists. split.
    { unfold Stroke.__init__, contains. change (default dp (Some path)) with path.
      rewrite Hf, HS, bind_Ok, stroke_new. reflexivity. }
    split; [reflexivity|]. intros text.
    pose proof (stroke_wrapped_ok ml ∅ _ text (stroke_new ml ∅)) as Hw.
    cbn [Stroke.stroke2id] in Hw. rewrite wrapped_ids_empty_table in Hw.
    assert (GraphemicSpec.symbol_id (Stroke.build_stroke2id ∅) unk_token = 1) as Hunk.
    { unfold GraphemicSpec.symbol_id.
      destruct (numbers_reserved _ _ (build_stroke2id_numbers ∅)) as ((_ & -> & _) & _).
      reflexivity. }
    rewrite Hunk in Hw. split; [exact Hw|]. intros HM.
    destruct (stroke_call_single ml ∅ _ text None true None (stroke_new ml ∅) HM)
      as (enc & Hcall & Henced).
    exists enc. split; [exact Hcall|].
    rewrite wrapped_ids_empty_table, Hunk in Henced. exact Henced.
  - unfold ZhText.__init__. rewrite HZ. reflexivity.
Qed.

Lemma missing_table_file_witness :
  ZhText.__init__ ∅ (py "zh2text.txt") 256 = Raise (FileNotFoundError (py "zh2text.txt")).
Proof.
  apply (missing_table_file ∅ (py "zh2letter.txt") (py "zh2text.txt") 256).
  apply lookup_empty.
Defined.

(** C5.  With the table "人 PN", zh2text.py decomposes the character 口
    (U+53E3), which has no entry, into the five characters of the string
    "[UNK]" and emits five ids for it, among them the id 4 of the stroke
    symbol N; stroke_tokenizer.py emits the single id 1 of UNK. *)
Theorem zhtext_spreads_unk_token :
  (∃ tk,
     ZhText.__init__ table_ren (py "zh2text.txt") 256 = Ok tk ∧
     ZhText.char2stroke tk !! [21475%N] = None ∧
     ZhText.text_to_strokes tk [21475%N] = py <$> ["["; "U"; "N"; "K"; "]"]%string ∧
     ZhText.wrapped tk [21475%N] = Ok [2; 1; 1; 4; 1; 1; 3] ∧
     GraphemicSpec.wrapped_ids (ZhText.char2stroke tk) (ZhText.stroke2idx tk) [21475%N]
       = [2; 1; 3]) ∧
  (∃ tk,
     (Stroke.__init__ table_ren (py "zh2letter.txt") (Some (py "zh2text.txt")) 256).2 = Ok tk ∧
     Stroke.text_to_strokes tk [21475%N] = [unk_token] ∧
     Stroke.wrapped tk [21475%N] = Ok [Some 2; Some 1; Some 3]).
Proof.
  split.
  - eexists. split; [vm_compute; reflexivity|]. vm_compute. done.
  - eexists. split; [vm_compute; reflexivity|]. vm_compute. done.
Qed.

(** C10.  On a table whose first line is the comment "# char strokes" the
    loaders differ: stroke_tokenizer.py reads the comment as the entry of the
    character "#" with the symbols "char", zh2text.py skips it. *)
Theorem loaders_differ_on_comment :
  Stroke._load_zh2text table_comment (py "zh2letter.txt")
    = ([], Ok {[ py "#" := py "char"; [19968%N] := py "H" ]}) ∧
  ZhText._load_zh2text table_comment (py "zh2letter.txt")
    = Ok {[ [19968%N] := py "H" ]} ∧
  ZhText._load_zh2text table_comment (py "zh2letter.txt")
    ≠ (Stroke._load_zh2text table_comment (py "zh2letter.txt")).2.
Proof.
  assert (Stroke._load_zh2text table_comment (py "zh2letter.txt")
            = ([], Ok {[ py "#" := py "char"; [19968%N] := py "H" ]})) as HS
    by (vm_compute; reflexivity).
  assert (ZhText._load_zh2text table_comment (py "zh2letter.txt")
            = Ok {[ [19968%N] := py "H" ]}) as HZ
    by (vm_compute; reflexivity).
  split; [exact HS|]. split; [exact HZ|].
  rewrite HS, HZ. cbn [snd]. intros H.
  apply (f_equal (λ r, match r with Ok m => m !! py "#" | Raise _ => None end)) in H.
  vm_compute in H. discriminate H.
Qed.

(** ** A batch of texts in stroke_tokenizer.py *)

Lemma torch_tensor_ok (rows : list (list nat)) (n : nat) :
  Forall (λ r, length r = n) rows → torch_tensor ((λ r : list nat, Some <$> r) <$> rows) = Ok rows.
Proof.
  intros Hall. unfold torch_tensor. destruct rows as [|r0 rows]; [done|].
  change (((λ r : list nat, Some <$> r) <$> (r0 :: rows)))
    with ((Some <$> r0) :: ((λ r : list nat, Some <$> r) <$> rows)) at 1.
  cbv iota.
  assert (forallb (λ r : list (option nat), length r =? length (Some <$> r0))
            ((λ r : list nat, Some <$> r) <$> (r0 :: rows)) = true) as ->.
  { apply forallb_Forall, Forall_fmap. eapply Forall_impl; [exact Hall|].
    intros r Hr. cbn. rewrite !length_fmap. apply Nat.eqb_eq.
    apply Forall_cons in Hall as [-> _]. done. }
  rewrite (mapM_fmap_Some (mapM id) (λ r : list nat, Some <$> r)); [done|].
  intros r. apply mapM_id_Some.
Qed.

Lemma mask_row (row : list nat) (k : nat) :
  Forall (λ i, i ≠ 0) row →
  map (λ i, if i =? 0 then 0 else 1) (row ++ replicate k 0)
    = replicate (length row) 1 ++ replicate k 0.
Proof.
  intros Hnz. rewrite map_app, (mask_nonzero 0 row Hnz). f_equal.
  induction k as [|k IH]; [done|]. cbn. by rewrite IH.
Qed.

(** [__call__] of stroke_tokenizer.py on a non-empty list of texts, with
    padding and truncation: every row is the wrapped sequence of its text cut
    to [max_length] and padded with PAD to the longest row; its mask is 1 on
    the ids kept and 0 on the padding. *)
Lemma stroke_call_batch (ml : Z) (c2s : gmap (list N) (list N))
    (tk : Stroke.StrokeTokenizer) (texts : list (list N)) (rt : option (list N))
    (mla : option Z) :
  Stroke.new ml c2s = Ok tk → (0 ≤ default ml mla)%Z → texts ≠ [] →
  ∃ L : nat,
    L = max_list ((λ t, length (take (Z.to_nat (default ml mla))
                     (GraphemicSpec.wrapped_ids c2s (Stroke.build_stroke2id c2s) t))) <$> texts) ∧
    Stroke.__call__ tk (Stroke.Texts texts) rt true true mla =
      Ok {| input_ids := T2 ((λ t,
              let row := take (Z.to_nat (default ml mla))
                           (GraphemicSpec.wrapped_ids c2s (Stroke.build_stroke2id c2s) t) in
              row ++ replicate (L - length row) 0) <$> texts);
            attention_mask := T2 ((λ t,
              let row := take (Z.to_nat (default ml mla))
                           (GraphemicSpec.wrapped_ids c2s (Stroke.build_stroke2id c2s) t) in
              replicate (length row) 1 ++ replicate (L - length row) 0) <$> texts) |}.
Proof.
  intros Hnew HM Hne. eexists. split; [reflexivity|].
  set (row := λ t, take (Z.to_nat (default ml mla))
                (GraphemicSpec.wrapped_ids c2s (Stroke.build_stroke2id c2s) t)).
  set (L := max_list _).
  pose proof Hnew as Hnew'. rewrite stroke_new in Hnew'. injection Hnew' as Htk.
  assert (getitem (Stroke.stroke2id tk) pad_token = Ok 0) as Hpad.
  { rewrite <- Htk. cbn [Stroke.stroke2id].
    destruct (numbers_reserved _ _ (build_stroke2id_numbers c2s)) as ((Hp & _) & _).
    unfold getitem. by rewrite Hp. }
  unfold Stroke.__call__. assert (Stroke.max_length tk = ml) as -> by (by rewrite <- Htk).
  rewrite (for_each_pure _ (λ t, Some <$> row t) texts
             (λ t, stroke_encode_one ml c2s tk _ t Hnew HM)), bind_Ok.
  rewrite Hpad, !bind_Ok.
  assert (max_len_of ((λ t, Some <$> row t) <$> texts) = Ok L) as ->.
  { unfold max_len_of. destruct texts as [|t0 ts]; [done|]. cbn [fmap list_fmap].
    f_equal. subst L. rewrite <- list_fmap_compose.
    change (length (Some <$> row t0) :: (length ∘ (λ t, Some <$> row t) <$> ts))
      with ((length ∘ (λ t, Some <$> row t)) <$> (t0 :: ts)).
    f_equal. apply list_fmap_ext. intros _ t _. cbn. by rewrite length_fmap. }
  rewrite bind_Ok. cbn [mret result_ret]. rewrite bind_Ok.
  assert (∀ t, t ∈ texts → length (row t) ≤ L) as Hle.
  { intros t Ht. subst L. apply max_list_elem_of_le.
    apply list_elem_of_fmap. by exists t. }
  assert (map (λ ids, ids ++ repeat_list (Some 0) (Z.of_nat L - Z.of_nat (length ids)))
            ((λ t, Some <$> row t) <$> texts)
          = (λ r : list nat, Some <$> r) <$> ((λ t, row t ++ replicate (L - length (row t)) 0) <$> texts)) as ->.
  { change (@map ?A ?B) with (@fmap list _ A B). rewrite <- !list_fmap_compose.
    apply list_fmap_ext. intros _ t _. cbn. rewrite length_fmap, fmap_app, fmap_replicate.
    unfold repeat_list. do 2 f_equal. lia. }
  rewrite (torch_tensor_ok _ L), bind_Ok.
  - rewrite bind_Ok. cbn [mret result_ret]. do 3 f_equal.
    change (@map ?A ?B) with (@fmap list _ A B).
    rewrite <- list_fmap_compose. apply list_fmap_ext. intros _ t _. cbn.
    apply mask_row. apply Forall_take, stroke_wrapped_ids_nonzero.
  - apply Forall_fmap, Forall_forall. intros t Ht. cbn.
    rewrite length_app, length_replicate. specialize (Hle t Ht). lia.
Qed.

(** An empty batch with padding raises: [max] of an empty sequence. *)
Lemma stroke_call_empty_batch (ml : Z) (c2s : gmap (list N) (list N))
    (tk : Stroke.StrokeTokenizer) (rt : option (list N)) (truncation : bool)
    (mla : option Z) :
  Stroke.new ml c2s = Ok tk →
  Stroke.__call__ tk (Stroke.Texts []) rt true truncation mla = Raise ValueError.
Proof.
  rewrite stroke_new. intros [= <-]. unfold Stroke.__call__. cbn [for_each Stroke.stroke2id].
  rewrite bind_Ok.
  destruct (numbers_reserved _ _ (build_stroke2id_numbers c2s)) as ((Hp & _) & _).
  unfold getitem. rewrite Hp. reflexivity.
Qed.

(** ** Where the phonetic split meets its specification *)

Lemma split_from_agrees (t2i : gmap (list N) nat) (initials : list (list N))
    (core tone : list N) (i : nat) :
  (∀ n, 1 ≤ n ≤ i → is_Some (t2i !! take n core) ↔ take n core ∈ initials) →
  Pinyin.split_from t2i core tone i
    = match PinyinSpec.longest_initial initials core i with
      | Some (initial, final) => [initial; final; tone]
      | None => [unk_token; unk_token; tone]
      end.
Proof.
  induction i as [|i IH]; intros Hin; [done|].
  cbn [Pinyin.split_from PinyinSpec.longest_initial].
  rewrite slice_to_of_nat. unfold contains, slice_from.
  specialize (Hin (S i)) as Hi. destruct (t2i !! take (S i) core) as [v|] eqn:E.
  - rewrite bool_decide_eq_true_2; [done|]. apply Hi; [lia|]. by eexists.
  - rewrite bool_decide_eq_false_2.
    + apply IH. intros n Hn. apply Hin. lia.
    + intros Hc. apply Hi in Hc; [|lia]. by destruct Hc.
Qed.

(** The keys of the phonetic vocabulary. *)
Lemma pinyin_token2id_keys (s : list N) :
  is_Some (Pinyin.build_token2id !! s) ↔ s ∈ Pinyin.vocab.
Proof.
  pose proof (enumerate_numbers _ pinyin_vocab_NoDup) as Hn.
  rewrite list_elem_of_lookup. unfold is_Some. split; intros [i Hi]; exists i; by apply Hn.
Qed.

(** The split is the specified one on every syllable no prefix of whose core
    is a special token, a final or a tone digit: there the longest prefix in
    the vocabulary is the longest initial. *)
Lemma split_pinyin_agrees (unicode_digit : N → bool) (ml : Z)
    (tk : Pinyin.PinyinTokenizer) (p : list N) :
  Pinyin.__init__ ml = Ok tk →
  (∀ n, 1 ≤ n ≤ length (Pinyin.core_of unicode_digit p) →
        take n (Pinyin.core_of unicode_digit p)
          ∉ special_tokens ++ Pinyin.finals ++ Pinyin.tones) →
  Pinyin.split_pinyin unicode_digit tk p
    = PinyinSpec.split_core Pinyin.initials (Pinyin.core_of unicode_digit p)
        (Pinyin.tone_of unicode_digit p).
Proof.
  rewrite pinyin_init. intros [= <-] Hother.
  unfold Pinyin.split_pinyin, PinyinSpec.split_core. cbn [Pinyin.token2id].
  apply split_from_agrees. intros n Hn. rewrite pinyin_token2id_keys.
  specialize (Hother n Hn). unfold Pinyin.vocab.
  rewrite !elem_of_app in *. tauto.
Qed.

(** * Further properties *)

(** ** The phonetic split *)

Lemma tone_core_parts (unicode_digit : N → bool) (p : list N) :
  length (Pinyin.tone_of unicode_digit p) = 1 ∧
  (Pinyin.core_of unicode_digit p ++ Pinyin.tone_of unicode_digit p = p ∨
   (Pinyin.tone_of unicode_digit p = py "5" ∧ Pinyin.core_of unicode_digit p = p)).
Proof.
  unfold Pinyin.core_of, Pinyin.tone_of.
  destruct (last p) as [c|] eqn:El.
  - destruct (Pinyin.isdigit unicode_digit c).
    + split; [reflexivity|]. destruct (decide ([c] = py "5")) as [E|E].
      * right. rewrite bool_decide_eq_false_2 by (intros H; by apply H). done.
      * left. rewrite bool_decide_eq_true_2 by done. rewrite slice_to_minus_one.
        apply last_Some in El as [l' ->]. by rewrite removelast_last.
    + split; [reflexivity|]. right. rewrite bool_decide_eq_false_2; [done|].
      intros H. by apply H.
  - split; [reflexivity|]. right. rewrite bool_decide_eq_false_2; [done|].
    intros H. by apply H.
Qed.

(** X1.  Whatever the vocabulary, [split_pinyin] returns the longest
    non-empty prefix of the core that is a key of [token2id], with the rest
    of the core and the tone; when no such prefix exists it returns UNK twice
    and the tone. *)
Theorem split_pinyin_longest_prefix (unicode_digit : N → bool)
    (self : Pinyin.PinyinTokenizer) (p : list N) :
  (∃ n, 1 ≤ n ≤ length (Pinyin.core_of unicode_digit p) ∧
        is_Some (Pinyin.token2id self !! take n (Pinyin.core_of unicode_digit p)) ∧
        (∀ m, n < m ≤ length (Pinyin.core_of unicode_digit p) →
              Pinyin.token2id self !! take m (Pinyin.core_of unicode_digit p) = None) ∧
        Pinyin.split_pinyin unicode_digit self p
          = [take n (Pinyin.core_of unicode_digit p);
             drop n (Pinyin.core_of unicode_digit p);
             Pinyin.tone_of unicode_digit p])
  ∨ ((∀ m, 1 ≤ m ≤ length (Pinyin.core_of unicode_digit p) →
           Pinyin.token2id self !! take m (Pinyin.core_of unicode_digit p) = None) ∧
     Pinyin.split_pinyin unicode_digit self p
       = [unk_token; unk_token; Pinyin.tone_of unicode_digit p]).
Proof. apply split_from_greedy. Qed.

(** X2.  The split loses nothing: the result is a triple whose tone is one
    character long, whose initial and final concatenate to the core unless
    both are UNK, and whose core and tone concatenate to the syllable unless
    the tone is the default "5" and the core the whole syllable. *)
Theorem split_pinyin_lossless (unicode_digit : N → bool)
    (self : Pinyin.PinyinTokenizer) (p : list N) :
  ∃ initial final tone,
    Pinyin.split_pinyin unicode_digit self p = [initial; final; tone] ∧
    length tone = 1 ∧
    (initial ++ final = Pinyin.core_of unicode_digit p ∨
     (initial = unk_token ∧ final = unk_token)) ∧
    (Pinyin.core_of unicode_digit p ++ tone = p ∨
     (tone = py "5" ∧ Pinyin.core_of unicode_digit p = p)).
Proof.
  destruct (tone_core_parts unicode_digit p) as [Ht Hc].
  destruct (split_from_greedy (Pinyin.token2id self) (Pinyin.core_of unicode_digit p)
              (Pinyin.tone_of unicode_digit p) (length (Pinyin.core_of unicode_digit p)))
    as [(n & _ & _ & _ & E)|[_ E]].
  - eexists _, _, _. split; [exact E|]. split; [exact Ht|]. split; [|exact Hc].
    left. apply take_drop.
  - eexists _, _, _. split; [exact E|]. split; [exact Ht|]. split; [|exact Hc].
    by right.
Qed.

(** ** The phonetic encoder *)

Section PinyinFurther.
Variable unicode_digit : char → bool.
Variable pinyin : list N → list (list (list N)).

Lemma pinyin_vocab_size (ml : Z) (tk : Pinyin.PinyinTokenizer) :
  Pinyin.__init__ ml = Ok tk → Pinyin.vocab_size tk = 55.
Proof.
  rewrite pinyin_init. intros [= <-]. unfold Pinyin.vocab_size. cbn [Pinyin.token2id].
  exact (numbers_size Pinyin.vocab Pinyin.build_token2id pinyin_vocab_NoDup
           (enumerate_numbers _ pinyin_vocab_NoDup)).
Qed.


(** What [encode] returns, by the entries retained. *)
Lemma encode_syllables_ok (ml : Z) (tk : Pinyin.PinyinTokenizer)
    (syllables : list (list (list N))) :
  Pinyin.__init__ ml = Ok tk →
  Pinyin.encode_syllables unicode_digit tk syllables
    = Ok match PinyinSpec.retained syllables ≫= PinyinSpec.entry_ids unicode_digit tk with
         | [] => [1]
         | ids => ids
         end.
Proof.
  intros Hinit. unfold Pinyin.encode_syllables.
  rewrite (encode_loop_ok unicode_digit ml tk _ [] Hinit), bind_Ok. cbn [app].
  destruct (_ ≫= _) as [|i ids]; [|reflexivity].
  rewrite pinyin_init in Hinit. injection Hinit as <-. cbn [Pinyin.token2id].
  destruct pinyin_special_ids as (_ & -> & _). reflexivity.
Qed.


(** [__call__] of the phonetic tokenizer, whatever the options. *)
Lemma pinyin_call_general (ml : Z) (tk : Pinyin.PinyinTokenizer) (text : list N)
    (mla : option Z) (padding : list N) (truncation : bool) :
  Pinyin.__init__ ml = Ok tk →
  ∃ ids kept k,
    Pinyin.encode unicode_digit pinyin tk text = Ok ids ∧
    kept = (if truncation then slice_to (or_default mla ml) ([2] ++ ids ++ [3])
            else [2] ++ ids ++ [3]) ∧
    k = (if bool_decide (padding = py "max_length")
         then Z.to_nat (or_default mla ml - Z.of_nat (length kept)) else 0) ∧
    Pinyin.__call__ unicode_digit pinyin tk text mla padding truncation
      = Ok {| input_ids := T2 [kept ++ replicate k 0];
              attention_mask := T2 [replicate (length kept) 1 ++ replicate k 0] |}.
Proof.
  intros Hinit. destruct (pinyin_encode_ok unicode_digit pinyin ml tk text Hinit) as (ids & Henc & _).
  exists ids. eexists _, _. split; [exact Henc|]. split; [reflexivity|]. split; [reflexivity|].
  unfold Pinyin.__call__.
  rewrite Henc, bind_Ok, (pinyin_wrap_ok ml tk ids Hinit), bind_Ok.
  rewrite pinyin_init in Hinit. injection Hinit as <-. clear Henc.
  cbn [Pinyin.max_length Pinyin.token2id].
  set (M := or_default mla ml). set (w := [2] ++ ids ++ [3]).
  set (kept := if truncation then slice_to M w else w).
  rewrite repeat_list_of_nat.
  destruct (bool_decide (padding = py "max_length")); cbn [andb].
  - destruct (Z.ltb_spec (Z.of_nat (length kept)) M).
    + destruct pinyin_special_ids as (-> & _). rewrite bind_Ok. reflexivity.
    + replace (Z.to_nat (M - Z.of_nat (length kept))) with 0 by lia.
      cbn [replicate]. rewrite !app_nil_r. reflexivity.
  - cbn [replicate]. rewrite !app_nil_r. reflexivity.
Qed.

End PinyinFurther.

Lemma Forall_slice_to {A} (P : A → Prop) (n : Z) (l : list A) :
  Forall P l → Forall P (slice_to n l).
Proof. intros Hl. unfold slice_to. destruct (0 <=? n)%Z; by apply Forall_take. Qed.

Lemma slice_to_fmap {A B} (f : A → B) (n : Z) (l : list A) :
  slice_to n (f <$> l) = f <$> slice_to n l.
Proof. unfold slice_to. rewrite length_fmap. destruct (0 <=? n)%Z; by rewrite fmap_take. Qed.

Lemma retained_app (a b : list (list (list N))) :
  PinyinSpec.retained (a ++ b) = PinyinSpec.retained a ++ PinyinSpec.retained b.
Proof. unfold PinyinSpec.retained. apply List.filter_app. Qed.

(** X3.  Encoding composes: when two lists of entries each retain at least
    one entry, the ids of their concatenation are the ids of the first
    followed by the ids of the second. *)
Theorem encode_syllables_app (unicode_digit : N → bool) (ml : Z)
    (a b : list (list (list N))) :
  PinyinSpec.retained a ≠ [] → PinyinSpec.retained b ≠ [] →
  ∃ tk ia ib,
    Pinyin.__init__ ml = Ok tk ∧
    Pinyin.encode_syllables unicode_digit tk a = Ok ia ∧
    Pinyin.encode_syllables unicode_digit tk b = Ok ib ∧
    Pinyin.encode_syllables unicode_digit tk (a ++ b) = Ok (ia ++ ib).
Proof.
  intros Ha Hb.
  set (tk := {| Pinyin.max_length := ml; Pinyin.token2id := Pinyin.build_token2id;
                Pinyin.id2token := invert Pinyin.build_token2id;
                Pinyin.pad_token_id := 0 |}).
  set (f := PinyinSpec.entry_ids unicode_digit tk).
  assert (∀ s, PinyinSpec.retained s ≠ [] → PinyinSpec.retained s ≫= f ≠ []) as Hne.
  { intros s Hs E. apply (f_equal length) in E.
    rewrite (bind_length_3 f) in E by apply entry_ids_length.
    destruct (PinyinSpec.retained s); [by apply Hs|cbn in E; lia]. }
  specialize (Hne a Ha) as Hna. specialize (Hne b Hb) as Hnb.
  exists tk, (PinyinSpec.retained a ≫= f), (PinyinSpec.retained b ≫= f).
  split; [apply pinyin_init|].
  rewrite !(encode_syllables_ok unicode_digit ml tk _ (pinyin_init ml)).
  rewrite retained_app, bind_app. fold f.
  destruct (PinyinSpec.retained a ≫= f) as [|i ia]; [by destruct Hna|].
  destruct (PinyinSpec.retained b ≫= f) as [|j ib]; [by destruct Hnb|].
  split; [reflexivity|]. split; reflexivity.
Qed.

Lemma encode_syllables_app_witness :
  ∃ tk,
    Pinyin.__init__ 128 = Ok tk ∧
    Pinyin.encode_syllables (λ _, false) tk ([[py "ma1"]] ++ [[py "ni3"]])
      = Ok ([6; 27; 50] ++ [10; 30; 52]).
Proof.
  destruct (encode_syllables_app (λ _, false) 128 [[py "ma1"]] [[py "ni3"]])
    as (tk & ia & ib & Hinit & Ha & Hb & Hab).
  - vm_compute. discriminate.
  - vm_compute. discriminate.
  - exists tk. split; [exact Hinit|].
    assert (Pinyin.encode_syllables (λ _, false) tk [[py "ma1"]] = Ok [6; 27; 50]) as Ha'.
    { rewrite pinyin_init in Hinit. injection Hinit as <-. vm_compute. reflexivity. }
    assert (Pinyin.encode_syllables (λ _, false) tk [[py "ni3"]] = Ok [10; 30; 52]) as Hb'.
    { rewrite pinyin_init in Hinit. injection Hinit as <-. vm_compute. reflexivity. }
    rewrite Ha' in Ha. rewrite Hb' in Hb.
    injection Ha as <-. injection Hb as <-. exact Hab.
Defined.


(** ** The graphemic vocabularies *)

Lemma numbers_unique (V : list (list N)) (m1 m2 : gmap (list N) nat) :
  VocabSpec.numbers V m1 → VocabSpec.numbers V m2 → m1 = m2.
Proof.
  intros H1 H2. apply map_eq. intros s. apply option_eq. intros i.
  by rewrite (H1 s i), (H2 s i).
Qed.

(** X5.  The two graphemic classes build the same vocabulary from every
    table: [_build_vocab] of stroke_tokenizer.py and [_build_stroke_vocab] of
    zh2text.py return the same symbol-to-id and the same id-to-symbol
    dictionary. *)
Theorem graphemic_vocabularies_equal (c2s : gmap (list N) (list N)) :
  (Stroke._build_vocab c2s).1.1 = (ZhText._build_stroke_vocab c2s).1 ∧
  (Stroke._build_vocab c2s).1.2 = (ZhText._build_stroke_vocab c2s).2.
Proof.
  cbn [Stroke._build_vocab ZhText._build_stroke_vocab fst snd].
  pose proof (build_stroke2id_numbers c2s) as H1.
  pose proof (build_stroke2idx_numbers c2s) as H2.
  split; [by apply (numbers_unique _ _ _ H1 H2)|].
  apply map_eq. intros i. apply option_eq. intros s.
  rewrite invert_lookup by (intros s1 s2 j; apply (numbers_inj _ _ _ _ _ H1)).
  unfold ZhText.build_idx2stroke, ZhText.vocab.
  rewrite dict_of_enumerate, all_strokes_stroke_set. apply H1.
Qed.

Lemma sorted_length (S : gset (list N)) : length (sorted S) = size S.
Proof. unfold sorted. by rewrite merge_sort_Permutation. Qed.

(** X6.  [vocab_size] is 4 plus the number of distinct characters occurring
    in the values of the table, in both graphemic classes; for the phonetic
    tokenizer it is 55. *)
Theorem vocab_size_counts_symbols (ml : Z) (c2s : gmap (list N) (list N)) :
  (∃ tk, Stroke.new ml c2s = Ok tk ∧
         Stroke.vocab_size tk = 4 + size (Stroke.stroke_set c2s)) ∧
  ZhText.vocab_size (ZhText.new ml c2s) = 4 + size (ZhText.all_strokes c2s) ∧
  (∃ tk, Pinyin.__init__ ml = Ok tk ∧ Pinyin.vocab_size tk = 55).
Proof.
  split_and!.
  - eexists. split; [apply stroke_new|]. cbn [Stroke.vocab_size].
    rewrite (numbers_size _ _ (stroke_vocab_NoDup c2s) (build_stroke2id_numbers c2s)).
    rewrite length_app, sorted_length. reflexivity.
  - unfold ZhText.vocab_size.
    cbn [ZhText.new ZhText._build_stroke_vocab ZhText.stroke2idx].
    rewrite (numbers_size _ _ (stroke_vocab_NoDup c2s) (build_stroke2idx_numbers c2s)).
    rewrite length_app, sorted_length, all_strokes_stroke_set. reflexivity.
  - eexists. split; [apply pinyin_init|]. apply (pinyin_vocab_size ml). apply pinyin_init.
Qed.

Lemma graphemic_symbol_id_lt (St : list (list N)) (m : gmap (list N) nat) (s : list N) :
  VocabSpec.numbers (special_tokens ++ St) m →
  GraphemicSpec.symbol_id m s < length (special_tokens ++ St).
Proof.
  intros Hm. unfold GraphemicSpec.symbol_id.
  destruct (m !! s) as [i|] eqn:E; cbn [default from_option id].
  - apply Hm in E. by apply lookup_lt_Some in E.
  - rewrite length_app. cbn. lia.
Qed.

Lemma stroke_wrapped_ids_lt (c2s : gmap (list N) (list N)) (text : list N) :
  Forall (λ i, i < size (Stroke.build_stroke2id c2s))
    (GraphemicSpec.wrapped_ids c2s (Stroke.build_stroke2id c2s) text).
Proof.
  pose proof (build_stroke2id_numbers c2s) as Hn.
  rewrite (numbers_size _ _ (stroke_vocab_NoDup c2s) Hn).
  assert (4 ≤ length (special_tokens ++ sorted (Stroke.stroke_set c2s))) as H4
    by (rewrite length_app; cbn; lia).
  unfold GraphemicSpec.wrapped_ids. apply Forall_app. split; [apply Forall_singleton; lia|].
  apply Forall_app. split; [|apply Forall_singleton; lia].
  apply Forall_forall. intros i (ch & Hi & _)%list_elem_of_bind.
  unfold GraphemicSpec.char_ids in Hi. apply list_elem_of_fmap in Hi as (s & -> & _).
  by apply graphemic_symbol_id_lt.
Qed.


(** [__call__] of zh2text.py, whatever the options. *)
Lemma zhtext_call_general (ml : Z) (c2s : gmap (list N) (list N)) (text : list N)
    (mla : option Z) (padding : list N) (truncation : bool) (rt : option (list N))
    (w : list nat) :
  ZhText.wrapped (ZhText.new ml c2s) text = Ok w →
  ∃ kept k,
    kept = (if truncation && (or_default mla ml <? Z.of_nat (length w))%Z
            then slice_to (or_default mla ml) w else w) ∧
    k = (if bool_decide (padding = py "max_length")
         then Z.to_nat (or_default mla ml - Z.of_nat (length kept)) else 0) ∧
    ZhText.__call__ (ZhText.new ml c2s) text mla padding truncation rt
      = Ok {| input_ids := ZhText.tensor_of rt (kept ++ replicate k 0);
              attention_mask :=
                ZhText.tensor_of rt (replicate (length kept) 1 ++ replicate k 0) |}.
Proof.
  intros Hw. eexists _, _. split; [reflexivity|]. split; [reflexivity|].
  unfold ZhText.__call__. rewrite Hw, bind_Ok.
  cbn [ZhText.max_length ZhText.new ZhText._build_stroke_vocab ZhText.stroke2idx].
  set (M := or_default mla ml).
  set (kept := if truncation && (M <? Z.of_nat (length w))%Z then slice_to M w else w).
  rewrite repeat_list_of_nat.
  destruct (bool_decide (padding = py "max_length")).
  - destruct (numbers_reserved _ _ (build_stroke2idx_numbers c2s)) as ((Hp & _) & _).
    unfold getitem. rewrite Hp, !bind_Ok. reflexivity.
  - cbn [mret result_ret replicate]. rewrite bind_Ok, !app_nil_r. reflexivity.
Qed.

(** [__call__] of stroke_tokenizer.py on one string, whatever the options. *)
Lemma stroke_call_single_general (ml : Z) (c2s : gmap (list N) (list N))
    (tk : Stroke.StrokeTokenizer) (text : list N) (rt : option (list N))
    (padding truncation : bool) (mla : option Z) :
  Stroke.new ml c2s = Ok tk →
  ∃ kept,
    kept = (if truncation &&
               (default ml mla <? Z.of_nat (length
                  (GraphemicSpec.wrapped_ids c2s (Stroke.build_stroke2id c2s) text)))%Z
            then slice_to (default ml mla)
                   (GraphemicSpec.wrapped_ids c2s (Stroke.build_stroke2id c2s) text)
            else GraphemicSpec.wrapped_ids c2s (Stroke.build_stroke2id c2s) text) ∧
    Stroke.__call__ tk (Stroke.Text text) rt padding truncation mla
      = Ok {| input_ids := T2 [kept]; attention_mask := T2 [replicate (length kept) 1] |}.
Proof.
  intros Hnew. eexists. split; [reflexivity|].
  set (w := GraphemicSpec.wrapped_ids c2s (Stroke.build_stroke2id c2s) text).
  set (M := default ml mla).
  set (kept := if truncation && (M <? Z.of_nat (length w))%Z then slice_to M w else w).
  unfold Stroke.__call__. cbn [for_each]. unfold Stroke.encode_one.
  rewrite (stroke_wrapped_ok ml c2s tk text Hnew), bind_Ok.
  rewrite stroke_new in Hnew. injection Hnew as <-.
  cbn [Stroke.max_length Stroke.stroke2id]. fold w M.
  assert ((if truncation && (M <? Z.of_nat (length (Some <$> w)))%Z
           then slice_to M (Some <$> w) else Some <$> w) = Some <$> kept) as ->.
  { subst kept. rewrite length_fmap, slice_to_fmap. by destruct (_ && _). }
  cbn [mret result_ret]. rewrite !bind_Ok.
  assert (getitem (Stroke.build_stroke2id c2s) pad_token = Ok 0) as Hpad.
  { destruct (numbers_reserved _ _ (build_stroke2id_numbers c2s)) as ((Hp & _) & _).
    unfold getitem. by rewrite Hp. }
  assert (torch_tensor [Some <$> kept] = Ok [kept]) as Htensor.
  { unfold torch_tensor. cbn [forallb]. rewrite Nat.eqb_refl. cbn [andb].
    cbn [mapM]. rewrite mapM_id_Some. reflexivity. }
  assert (map (λ i, if i =? 0 then 0 else 1) kept = replicate (length kept) 1) as Hmask.
  { apply mask_nonzero. subst kept.
    destruct (_ && _); [apply Forall_slice_to|]; apply stroke_wrapped_ids_nonzero. }
  destruct padding.
  - rewrite Hpad, bind_Ok. unfold max_len_of. rewrite bind_Ok.
    cbn [fmap list_fmap max_list map mret result_ret].
    rewrite Nat.max_0_r, Z.sub_diag. unfold repeat_list at 1. cbn [Z.to_nat replicate].
    rewrite app_nil_r, bind_Ok, Htensor, bind_Ok, bind_Ok. cbn [map]. rewrite Hmask.
    reflexivity.
  - rewrite bind_Ok, Htensor, bind_Ok, Hpad, bind_Ok. cbn [map]. rewrite Hmask.
    reflexivity.
Qed.

(** ** The graphemic encoders, whatever the options *)


(** X8.  [__call__] of stroke_tokenizer.py on one string returns a result for
    every table, text and combination of options: one row of ids, never
    padded, none of them the PAD id and each below [vocab_size], and a mask
    of as many ones. *)
Theorem stroke_call_single_total (ml : Z) (c2s : gmap (list N) (list N))
    (text : list N) (rt : option (list N)) (padding truncation : bool)
    (mla : option Z) :
  ∃ tk ids,
    Stroke.new ml c2s = Ok tk ∧
    Stroke.__call__ tk (Stroke.Text text) rt padding truncation mla
      = Ok {| input_ids := T2 [ids]; attention_mask := T2 [replicate (length ids) 1] |} ∧
    Forall (λ i, i ≠ 0 ∧ i < Stroke.vocab_size tk) ids.
Proof.
  destruct (stroke_call_single_general ml c2s _ text rt padding truncation mla
              (stroke_new ml c2s)) as (kept & Hkept & Hcall).
  eexists. exists kept. split; [apply stroke_new|]. split; [exact Hcall|].
  cbn [Stroke.vocab_size].
  assert (Forall (λ i, i ≠ 0 ∧ i < size (Stroke.build_stroke2id c2s))
            (GraphemicSpec.wrapped_ids c2s (Stroke.build_stroke2id c2s) text)) as Hw.
  { apply Forall_and. split; [apply stroke_wrapped_ids_nonzero|apply stroke_wrapped_ids_lt]. }
  subst kept. destruct (_ && _); [by apply Forall_slice_to|exact Hw].
Qed.



(** X10.  Without truncation nothing is cut: the three encoders return the
    whole wrapped sequence, also beyond the length limit, followed by the
    padding where the class pads, and the mask holds as many ones as the
    wrapped sequence is long. *)
Theorem no_truncation_keeps_all :
  (∀ (unicode_digit : N → bool) (pinyin : list N → list (list (list N)))
     (ml : Z) (text : list N) (mla : option Z) (padding : list N),
     ∃ tk ids k,
       Pinyin.__init__ ml = Ok tk ∧
       Pinyin.encode unicode_digit pinyin tk text = Ok ids ∧
       Pinyin.__call__ unicode_digit pinyin tk text mla padding false
         = Ok {| input_ids := T2 [([2] ++ ids ++ [3]) ++ replicate k 0];
                 attention_mask :=
                   T2 [replicate (length ([2] ++ ids ++ [3])) 1 ++ replicate k 0] |}) ∧
  (∀ (ml : Z) (c2s : gmap (list N) (list N)) (text : list N) (rt : option (list N))
     (padding : bool) (mla : option Z),
     ∃ tk w,
       Stroke.new ml c2s = Ok tk ∧
       Stroke.wrapped tk text = Ok (Some <$> w) ∧
       Stroke.__call__ tk (Stroke.Text text) rt padding false mla
         = Ok {| input_ids := T2 [w]; attention_mask := T2 [replicate (length w) 1] |}) ∧
  (∀ (ml : Z) (c2s : gmap (list N) (list N)) (text : list N) (mla : option Z)
     (padding : list N) (rt : option (list N)),
     ∃ w k,
       ZhText.wrapped (ZhText.new ml c2s) text = Ok w ∧
       ZhText.__call__ (ZhText.new ml c2s) text mla padding false rt
         = Ok {| input_ids := ZhText.tensor_of rt (w ++ replicate k 0);
                 attention_mask :=
                   ZhText.tensor_of rt (replicate (length w) 1 ++ replicate k 0) |}).
Proof.
  split_and!.
  - intros ud pinyin ml text mla padding.
    destruct (pinyin_call_general ud pinyin ml _ text mla padding false (pinyin_init ml))
      as (ids & kept & k & Henc & -> & _ & Hcall).
    eexists. exists ids, k. split; [apply pinyin_init|]. split; [exact Henc|exact Hcall].
  - intros ml c2s text rt padding mla.
    destruct (stroke_call_single_general ml c2s _ text rt padding false mla (stroke_new ml c2s))
      as (kept & -> & Hcall).
    eexists. eexists. split; [apply stroke_new|].
    split; [apply (stroke_wrapped_ok ml c2s _ text (stroke_new ml c2s))|exact Hcall].
  - intros ml c2s text mla padding rt.
    destruct (zhtext_wrapped_nonzero ml c2s text) as (w & Hw & _).
    destruct (zhtext_call_general ml c2s text mla padding false rt w Hw)
      as (kept & k & -> & _ & Hcall).
    exists w, k. split; [exact Hw|exact Hcall].
Qed.

(** ** Batches in stroke_tokenizer.py *)

Lemma max_list_bound (l : list nat) (n : nat) : Forall (λ x, x ≤ n) l → max_list l ≤ n.
Proof. induction 1 as [|x l Hx _ IH]; cbn; lia. Qed.

(** X11.  On a non-empty list of texts, with padding, truncation and a limit
    that is not negative, [__call__] of stroke_tokenizer.py returns one row
    per text, all of one length [L] that is at most the limit: each row is
    the wrapped sequence of its text cut to the limit and filled with PAD up
    to [L], and the sum of its mask is the smaller of the wrapped length and
    the limit. *)
Theorem stroke_batch_rectangular (ml : Z) (c2s : gmap (list N) (list N))
    (texts : list (list N)) (rt : option (list N)) (mla : option Z) :
  (0 ≤ default ml mla)%Z → texts ≠ [] →
  ∃ tk rows masks L,
    Stroke.new ml c2s = Ok tk ∧
    Stroke.__call__ tk (Stroke.Texts texts) rt true true mla
      = Ok {| input_ids := T2 rows; attention_mask := T2 masks |} ∧
    L ≤ Z.to_nat (default ml mla) ∧
    Forall2 (λ t r,
      length r = L ∧
      r = take (Z.to_nat (default ml mla))
            (GraphemicSpec.wrapped_ids c2s (Stroke.stroke2id tk) t)
          ++ replicate (L - length (take (Z.to_nat (default ml mla))
                                      (GraphemicSpec.wrapped_ids c2s (Stroke.stroke2id tk) t))) 0)
      texts rows ∧
    Forall2 (λ t m,
      length m = L ∧
      sum_list m = length (GraphemicSpec.wrapped_ids c2s (Stroke.stroke2id tk) t)
                     `min` Z.to_nat (default ml mla))
      texts masks.
Proof.
  intros HM Hne.
  destruct (stroke_call_batch ml c2s _ texts rt mla (stroke_new ml c2s) HM Hne)
    as (L & HL & Hcall).
  eexists. eexists _, _. exists L. split; [apply stroke_new|]. split; [exact Hcall|].
  cbn [Stroke.stroke2id]. clear Hcall.
  set (row := λ t, take (Z.to_nat (default ml mla))
                (GraphemicSpec.wrapped_ids c2s (Stroke.build_stroke2id c2s) t)) in *.
  assert (∀ t, t ∈ texts → length (row t) ≤ L) as Hle.
  { intros t Ht. rewrite HL. apply max_list_elem_of_le.
    apply list_elem_of_fmap. by exists t. }
  assert (∀ t, length (row t) ≤ Z.to_nat (default ml mla)) as Hrow.
  { intros t. unfold row. rewrite length_take. lia. }
  split_and!.
  - rewrite HL. apply max_list_bound, Forall_fmap, Forall_forall.
    intros t _. apply Hrow.
  - apply Forall2_fmap_r, Forall_Forall2_diag, Forall_forall. intros t Ht.
    specialize (Hle t Ht). split; [|reflexivity].
    rewrite length_app, length_replicate. unfold row in Hle. lia.
  - apply Forall2_fmap_r, Forall_Forall2_diag, Forall_forall. intros t Ht.
    specialize (Hle t Ht). fold (row t). split.
    + rewrite length_app, !length_replicate. unfold row in Hle. lia.
    + rewrite sum_list_with_app, !sum_list_replicate. unfold row. rewrite length_take. lia.
Qed.

Lemma stroke_batch_rectangular_witness :
  ∃ tk,
    Stroke.new 8 ∅ = Ok tk ∧
    Stroke.__call__ tk (Stroke.Texts [py "ab"; py "a"]) None true true None
      = Ok {| input_ids := T2 [[2; 1; 1; 3]; [2; 1; 3; 0]];
              attention_mask := T2 [[1; 1; 1; 1]; [1; 1; 1; 0]] |}.
Proof.
  destruct (stroke_batch_rectangular 8 ∅ [py "ab"; py "a"] None None)
    as (tk & rows & masks & L & Hnew & Hcall & _); [cbn; lia|discriminate|].
  exists tk. split; [exact Hnew|].
  rewrite stroke_new in Hnew. injection Hnew as <-. vm_compute. reflexivity.
Defined.

(** X12.  Where [__call__] of stroke_tokenizer.py raises: an empty list of
    texts with padding raises [ValueError] (the maximum of no length), without
    padding it returns two empty tensors; two texts whose wrapped sequences
    differ in length, with neither padding nor truncation, raise [ValueError]
    (a ragged tensor). *)
Theorem stroke_call_errors (ml : Z) (c2s : gmap (list N) (list N))
    (rt : option (list N)) (truncation : bool) (mla : option Z) :
  ∃ tk,
    Stroke.new ml c2s = Ok tk ∧
    Stroke.__call__ tk (Stroke.Texts []) rt true truncation mla = Raise ValueError ∧
    Stroke.__call__ tk (Stroke.Texts []) rt false truncation mla
      = Ok {| input_ids := T2 []; attention_mask := T2 [] |} ∧
    ∀ t1 t2 : list N,
      length (GraphemicSpec.wrapped_ids c2s (Stroke.stroke2id tk) t1)
        ≠ length (GraphemicSpec.wrapped_ids c2s (Stroke.stroke2id tk) t2) →
      Stroke.__call__ tk (Stroke.Texts [t1; t2]) rt false false mla = Raise ValueError.
Proof.
  eexists. split; [apply stroke_new|].
  assert (getitem (Stroke.build_stroke2id c2s) pad_token = Ok 0) as Hpad.
  { destruct (numbers_reserved _ _ (build_stroke2id_numbers c2s)) as ((Hp & _) & _).
    unfold getitem. by rewrite Hp. }
  split; [apply (stroke_call_empty_batch ml c2s), stroke_new|].
  split.
  - unfold Stroke.__call__. cbn [for_each Stroke.stroke2id mret result_ret].
    rewrite !bind_Ok. cbn [torch_tensor]. rewrite bind_Ok, Hpad. reflexivity.
  - intros t1 t2 Hlen. unfold Stroke.__call__, Stroke.encode_one. cbn [for_each].
    rewrite !(stroke_wrapped_ok ml c2s _ _ (stroke_new ml c2s)).
    cbn [Stroke.stroke2id andb mret result_ret] in *. rewrite !bind_Ok.
    unfold torch_tensor. cbn [forallb]. rewrite Nat.eqb_refl. cbn [andb].
    rewrite !length_fmap.
    destruct (Nat.eqb_spec (length (GraphemicSpec.wrapped_ids c2s (Stroke.build_stroke2id c2s) t2))
                (length (GraphemicSpec.wrapped_ids c2s (Stroke.build_stroke2id c2s) t1)))
      as [E|_]; [by destruct Hlen|]. reflexivity.
Qed.

Lemma stroke_call_errors_witness :
  ∃ tk,
    Stroke.new 8 ∅ = Ok tk ∧
    Stroke.__call__ tk (Stroke.Texts [py "ab"; py "a"]) None false false None
      = Raise ValueError.
Proof.
  destruct (stroke_call_errors 8 ∅ None false None) as (tk & Hnew & _ & _ & Hragged).
  exists tk. split; [exact Hnew|]. apply Hragged.
  rewrite stroke_new in Hnew. injection Hnew as <-. vm_compute. discriminate.
Defined.

(** ** The table loaders *)

Lemma last_entry_snoc_other (lines : list (list N)) (l k v : list N) :
  (∀ v' rest', split (strip l) ≠ k :: v' :: rest') →
  LoaderSpec.last_entry lines k v ↔ LoaderSpec.last_entry (lines ++ [l]) k v.
Proof.
  intros Hl. split.
  - intros (i & line & rest & Hi & Hs & Hlast). exists i, line, rest.
    split; [by apply lookup_app_l_Some|]. split; [exact Hs|].
    intros j line' v' rest' Hij Hj.
    apply lookup_app_Some in Hj as [Hj|[_ Hj]]; [by eapply Hlast|].
    apply list_lookup_singleton_Some in Hj as [_ <-]. apply Hl.
  - intros (i & line & rest & Hi & Hs & Hlast).
    apply lookup_app_Some in Hi as [Hi|[_ Hi]].
    + exists i, line, rest. split; [exact Hi|]. split; [exact Hs|].
      intros j line' v' rest' Hij Hj. eapply Hlast; [exact Hij|].
      by apply lookup_app_l_Some.
    + apply list_lookup_singleton_Some in Hi as [_ <-]. by destruct (Hl v rest).
Qed.

Lemma last_entry_snoc_same (lines : list (list N)) (l k v p1 ps : list N)
    (rest : list (list N)) :
  split (strip l) = k :: p1 :: rest →
  LoaderSpec.last_entry (lines ++ [l]) k v ↔ p1 = v.
Proof.
  intros Hl. split.
  - intros (i & line & rest' & Hi & Hs & Hlast).
    apply lookup_app_Some in Hi as [Hi|[_ Hi]].
    + exfalso. apply (Hlast (length lines) l p1 rest).
      * by apply lookup_lt_Some in Hi.
      * rewrite lookup_app_r by lia. by rewrite Nat.sub_diag.
      * exact Hl.
    + apply list_lookup_singleton_Some in Hi as [_ <-]. congruence.
  - intros <-. exists (length lines), l, rest.
    split; [rewrite lookup_app_r by lia; by rewrite Nat.sub_diag|]. split; [exact Hl|].
    intros j line' v' rest' Hij Hj. apply lookup_lt_Some in Hj.
    rewrite length_app in Hj. cbn in Hj. lia.
Qed.

Lemma stroke_foldl_load_line_lookup (lines : list (list N)) (k v : list N) :
  foldl Stroke.load_line ∅ lines !! k = Some v ↔ LoaderSpec.last_entry lines k v.
Proof.
  induction lines as [|l lines IH] using rev_ind.
  - cbn. rewrite lookup_empty. split; [done|]. intros (i & line & rest & Hi & _). done.
  - rewrite foldl_snoc. unfold Stroke.load_line at 1.
    destruct (split (strip l)) as [|p0 [|p1 ps]] eqn:E.
    + rewrite IH. apply last_entry_snoc_other. intros v' rest'. by rewrite E.
    + rewrite IH. apply last_entry_snoc_other. intros v' rest'. by rewrite E.
    + rewrite lookup_insert_Some. destruct (decide (p0 = k)) as [->|Hne].
      * rewrite (last_entry_snoc_same lines l k v p1 [] ps E). split; [|by left].
        intros [[_ ?]|[? _]]; done.
      * rewrite <- (last_entry_snoc_other lines l k v), <- IH.
        -- split; [intros [[? _]|[_ ?]]; done|by right].
        -- intros v' rest'. rewrite E. intros [= ? _]. done.
Qed.

(** X13.  In the table stroke_tokenizer.py loads from an existing file, the
    entry of a key is the second field of the last line that has two fields
    or more and the key as its first; a key no such line names has no entry.
    Nothing is printed. *)
Theorem stroke_loader_last_line_wins (fs : gmap (list N) (list N))
    (path content k v : list N) :
  fs !! path = Some content →
  ∃ c2s,
    Stroke._load_zh2text fs path = ([], Ok c2s) ∧
    (c2s !! k = Some v ↔ LoaderSpec.last_entry (readlines content) k v).
Proof.
  intros Hf. eexists. split.
  - unfold Stroke._load_zh2text, open_lines. rewrite Hf. reflexivity.
  - apply stroke_foldl_load_line_lookup.
Qed.

Lemma stroke_loader_last_line_wins_witness :
  ∃ c2s,
    Stroke._load_zh2text {[ py "t" := py "a X" ++ [10%N] ++ py "a Y" ++ [10%N] ]} (py "t")
      = ([], Ok c2s) ∧
    c2s !! py "a" = Some (py "Y").
Proof.
  destruct (stroke_loader_last_line_wins
              {[ py "t" := py "a X" ++ [10%N] ++ py "a Y" ++ [10%N] ]}
              (py "t") (py "a X" ++ [10%N] ++ py "a Y" ++ [10%N]) (py "a") (py "Y"))
    as (c2s & Hload & Hk); [apply lookup_singleton_eq|].
  exists c2s. split; [exact Hload|]. apply Hk.
  exists 1, (py "a Y" ++ [10%N]), []. split; [reflexivity|]. split; [reflexivity|].
  intros j line' v' rest' Hj Hl. destruct j as [|[|j]]; [lia|lia|]. discriminate Hl.
Defined.

Lemma zhtext_foldl_load_line_filter (lines : list (list N)) (m : gmap (list N) (list N)) :
  foldl ZhText.load_line m lines
    = foldl Stroke.load_line m (List.filter (λ line, negb (LoaderSpec.is_comment line)) lines).
Proof.
  revert m. induction lines as [|l lines IH]; intros m; [done|].
  cbn [foldl List.filter]. unfold LoaderSpec.is_comment at 1.
  destruct (startswith (strip l) (py "#")) eqn:E; cbn [negb].
  - rewrite (zhtext_load_line_comment m l E). apply IH.
  - cbn [foldl]. rewrite (load_line_agree m l E). apply IH.
Qed.

(** X15.  The loader of zh2text.py is the loader of stroke_tokenizer.py run
    on the lines that are no comments: on an existing file it returns the
    table the other loader builds from the lines that do not start with '#'
    once stripped, and on a missing file it raises [FileNotFoundError]. *)
Theorem zhtext_loader_drops_comments (fs : gmap (list N) (list N)) (path : list N) :
  ZhText._load_zh2text fs path
    = match fs !! path with
      | Some content =>
          Ok (foldl Stroke.load_line ∅
                (List.filter (λ line, negb (LoaderSpec.is_comment line)) (readlines content)))
      | None => Raise (FileNotFoundError path)
      end.
Proof.
  unfold ZhText._load_zh2text, open_lines. destruct (fs !! path) as [content|]; [|done].
  rewrite bind_Ok. cbn [mret result_ret]. f_equal. apply zhtext_foldl_load_line_filter.
Qed.

Lemma split_go_fields (cur s : list N) :
  Forall (λ c, isspace c = false) cur → Forall LoaderSpec.field (split_go cur s).
Proof.
  revert cur. induction s as [|c s IH]; intros cur Hcur; cbn [split_go].
  - destruct cur as [|d cur]; [constructor|]. constructor; [|constructor]. by split.
  - destruct (isspace c) eqn:Ec.
    + destruct cur as [|d cur]; [by apply IH|].
      constructor; [by split|]. by apply IH.
    + apply IH. apply Forall_app. split; [exact Hcur|]. by constructor.
Qed.

Lemma split_go_head (cur s : list N) :
  cur ≠ [] → ∃ x rest, split_go cur s = (cur ++ x) :: rest.
Proof.
  revert cur. induction s as [|c s IH]; intros cur Hcur; cbn [split_go].
  - destruct cur; [done|]. exists [], []. by rewrite app_nil_r.
  - destruct (isspace c).
    + destruct cur; [done|]. exists [], (split_go [] s). by rewrite app_nil_r.
    + destruct (IH (cur ++ [c])) as (x & rest & E); [by destruct cur|].
      exists (c :: x), rest. by rewrite E, <- app_assoc.
Qed.

Lemma startswith_nil (s : list N) : startswith s [] = true.
Proof. by destruct s. Qed.

Lemma lstrip_snoc (u : list N) (d : N) :
  isspace d = false → lstrip (u ++ [d]) = lstrip u ++ [d].
Proof.
  intros Hd. induction u as [|c u IH]; cbn; [by rewrite Hd|].
  by destruct (isspace c).
Qed.

(** A stripped string starts with a character that is no whitespace. *)
Lemma strip_head (s : list N) (c : N) (r : list N) :
  strip s = c :: r → isspace c = false.
Proof.
  unfold strip, rstrip. pose proof (lstrip_head s) as Hh.
  destruct (lstrip s) as [|d t]; [done|].
  rewrite reverse_cons, (lstrip_snoc _ d Hh), reverse_app, reverse_singleton.
  cbn. intros [= <- _]. exact Hh.
Qed.

Lemma stroke_foldl_fields (lines : list (list N)) (m : gmap (list N) (list N)) :
  map_Forall (λ k v, LoaderSpec.field k ∧ LoaderSpec.field v) m →
  map_Forall (λ k v, LoaderSpec.field k ∧ LoaderSpec.field v)
    (foldl Stroke.load_line m lines).
Proof.
  revert m. induction lines as [|line lines IH]; intros m Hm; [done|].
  cbn [foldl]. apply IH. unfold Stroke.load_line.
  pose proof (split_go_fields [] (strip line) (Forall_nil_2 _)) as Hf. fold (split (strip line)) in Hf.
  destruct (split (strip line)) as [|p0 [|p1 ps]]; [done|done|].
  apply Forall_cons in Hf as [H0 Hf]. apply Forall_cons in Hf as [H1 _].
  by apply map_Forall_insert_2.
Qed.

Lemma zhtext_foldl_fields (lines : list (list N)) (m : gmap (list N) (list N)) :
  map_Forall (λ k v, LoaderSpec.field k ∧ LoaderSpec.field v ∧
                     startswith k (py "#") = false) m →
  map_Forall (λ k v, LoaderSpec.field k ∧ LoaderSpec.field v ∧
                     startswith k (py "#") = false)
    (foldl ZhText.load_line m lines).
Proof.
  revert m. induction lines as [|line lines IH]; intros m Hm; [done|].
  cbn [foldl]. apply IH. unfold ZhText.load_line.
  destruct (strip line) as [|c r] eqn:Es; [done|].
  destruct (startswith (c :: r) (py "#")) eqn:Ec; [done|].
  pose proof (split_go_fields [] (c :: r) (Forall_nil_2 _)) as Hf. fold (split (c :: r)) in Hf.
  pose proof (strip_head line c r Es) as Hc.
  assert (∃ x rest, split (c :: r) = (c :: x) :: rest) as (x & rest & Ex).
  { unfold split. cbn [split_go]. rewrite Hc. cbn [app].
    destruct (split_go_head [c] r) as (x & rest & E); [done|]. by exists x, rest. }
  rewrite Ex in *. destruct rest as [|p1 ps]; [done|].
  apply Forall_cons in Hf as [H0 Hf]. apply Forall_cons in Hf as [H1 _].
  apply map_Forall_insert_2; [|done]. split; [exact H0|]. split; [exact H1|].
  cbn in Ec |- *. rewrite startswith_nil in *. exact Ec.
Qed.

(** X14.  Every key and every value of a table either loader returns is a
    field of its line: not empty and free of whitespace.  A key of a table
    zh2text.py loaded never starts with '#'. *)
Theorem loaded_entries_are_fields :
  (∀ (fs : gmap (list N) (list N)) (path : list N) (c2s : gmap (list N) (list N))
     (k v : list N),
     (Stroke._load_zh2text fs path).2 = Ok c2s → c2s !! k = Some v →
     LoaderSpec.field k ∧ LoaderSpec.field v) ∧
  (∀ (fs : gmap (list N) (list N)) (path : list N) (c2s : gmap (list N) (list N))
     (k v : list N),
     ZhText._load_zh2text fs path = Ok c2s → c2s !! k = Some v →
     LoaderSpec.field k ∧ LoaderSpec.field v ∧ startswith k (py "#") = false).
Proof.
  split.
  - intros fs path c2s k v. unfold Stroke._load_zh2text.
    destruct (open_lines fs path) as [lines|e].
    + cbn [snd]. intros [= <-] Hk.
      apply (stroke_foldl_fields lines ∅ (map_Forall_empty _) k v Hk).
    + destruct e; cbn [snd]; intros [= <-]. by rewrite lookup_empty.
  - intros fs path c2s k v. unfold ZhText._load_zh2text.
    destruct (open_lines fs path) as [lines|e]; [|done].
    rewrite bind_Ok. intros [= <-] Hk.
    apply (zhtext_foldl_fields lines ∅ (map_Forall_empty _) k v Hk).
Qed.

Lemma loaded_entries_are_fields_witness :
  LoaderSpec.field [19968%N] ∧ LoaderSpec.field (py "H") ∧
  startswith [19968%N] (py "#") = false.
Proof.
  destruct loaded_entries_are_fields as [_ HZ].
  apply (HZ table_comment (py "zh2letter.txt") {[ [19968%N] := py "H" ]}).
  - vm_compute. reflexivity.
  - apply lookup_singleton_eq.
Defined.

(** ** Decoding in zh2text.py *)

Lemma zhtext_idx2stroke_lookup (ml : Z) (c2s : gmap (list N) (list N)) (i : nat) :
  ZhText.idx2stroke (ZhText.new ml c2s) !! i = ZhText.vocab c2s !! i.
Proof.
  cbn [ZhText.new ZhText._build_stroke_vocab ZhText.idx2stroke].
  apply dict_of_enumerate.
Qed.

Lemma zhtext_vocab_numbers (c2s : gmap (list N) (list N)) :
  VocabSpec.numbers (ZhText.vocab c2s) (ZhText.build_stroke2idx c2s).
Proof. unfold ZhText.vocab. rewrite all_strokes_stroke_set. apply build_stroke2idx_numbers. Qed.




(** X17.  [decode] never raises and keeps the length; an id that is not
    below [vocab_size] decodes to "[UNK]", the ids 0 to 3 decode to the four
    special tokens, and the id a symbol of the vocabulary is looked up to
    decodes to that symbol. *)
Theorem zhtext_decode_edges (ml : Z) (c2s : gmap (list N) (list N)) :
  (∀ ids, length (ZhText.decode (ZhText.new ml c2s) ids) = length ids) ∧
  (∀ i, ZhText.vocab_size (ZhText.new ml c2s) ≤ i →
        ZhText.decode (ZhText.new ml c2s) [i] = [unk_token]) ∧
  ZhText.decode (ZhText.new ml c2s) [0; 1; 2; 3] = special_tokens ∧
  (∀ s i, ZhText.stroke2idx (ZhText.new ml c2s) !! s = Some i →
          ZhText.decode (ZhText.new ml c2s) [i] = [s]).
Proof.
  pose proof (zhtext_vocab_numbers c2s) as Hn. split_and!.
  - intros ids. unfold ZhText.decode. by rewrite length_fmap.
  - intros i Hi. unfold ZhText.decode. cbn [fmap list_fmap].
    rewrite zhtext_idx2stroke_lookup, lookup_ge_None_2; [done|].
    unfold ZhText.vocab_size in Hi.
    cbn [ZhText.new ZhText._build_stroke_vocab ZhText.stroke2idx] in Hi.
    rewrite (numbers_size _ _ (stroke_vocab_NoDup c2s) (build_stroke2idx_numbers c2s)) in Hi.
    unfold ZhText.vocab. by rewrite all_strokes_stroke_set.
  - unfold ZhText.decode. cbn [fmap list_fmap]. by rewrite !zhtext_idx2stroke_lookup.
  - intros s i Hs. unfold ZhText.decode. cbn [fmap list_fmap].
    rewrite zhtext_idx2stroke_lookup.
    cbn [ZhText.new ZhText._build_stroke_vocab ZhText.stroke2idx] in Hs.
    apply Hn in Hs. by rewrite Hs.
Qed.

Lemma zhtext_decode_edges_witness :
  ZhText.decode (ZhText.new 256 ∅) [7] = [unk_token].
Proof.
  destruct (zhtext_decode_edges 256 ∅) as (_ & Hout & _).
  apply Hout. vm_compute. lia.
Defined.

(** ** Construction and decomposition in stroke_tokenizer.py *)


Lemma bind_length_ge {A B} (f : A → list B) (l : list A) :
  Forall (λ x, 0 < length (f x)) l → length l ≤ length (l ≫= f).
Proof.
  induction 1 as [|x l Hx _ IH]; [done|].
  cbn [mbind list_bind length]. rewrite length_app.
  change (length l ≤ length (l ≫= f)) in IH. lia.
Qed.

(** X19.  With the table it loaded, stroke_tokenizer.py skips no character:
    the wrapped ids of a text are CLS, the ids of its characters in order,
    SEP; every character contributes at least one id, so the wrapped
    sequence is at least two longer than the text. *)
Theorem stroke_no_character_skipped (fs : gmap (list N) (list N)) (dp : list N)
    (path : option (list N)) (ml : Z) (text : list N) :
  ∃ tk,
    (Stroke.__init__ fs dp path ml).2 = Ok tk ∧
    Stroke.wrapped tk text
      = Ok (Some <$> [2] ++ (text ≫= GraphemicSpec.char_ids (Stroke.char2stroke tk)
                                       (Stroke.stroke2id tk)) ++ [3]) ∧
    Forall (λ ch, 0 < length (GraphemicSpec.char_ids (Stroke.char2stroke tk)
                                (Stroke.stroke2id tk) ch)) text ∧
    length text + 2
      ≤ length ([2] ++ (text ≫= GraphemicSpec.char_ids (Stroke.char2stroke tk)
                                  (Stroke.stroke2id tk)) ++ [3]).
Proof.
  destruct (stroke_init fs dp path ml) as (c2s & Hload & Hinit).
  eexists. split; [rewrite Hinit; apply stroke_new|].
  cbn [Stroke.char2stroke Stroke.stroke2id].
  split; [apply (stroke_wrapped_ok ml c2s _ text (stroke_new ml c2s))|].
  assert (Forall (λ ch, 0 < length (GraphemicSpec.char_ids c2s
                                     (Stroke.build_stroke2id c2s) ch)) text) as Hall.
  { apply Forall_forall. intros ch _.
    apply (stroke_char_ids_nonempty fs (default dp path) c2s ch Hload). }
  split; [exact Hall|].
  rewrite !length_app. cbn [length]. apply bind_length_ge in Hall. lia.
Qed.

(** X20.  Decomposition goes character by character in both graphemic
    classes: the symbols of a concatenation are the symbols of its parts, one
    after the other, and the empty text has none. *)
Theorem text_to_strokes_app :
  (∀ (self : Stroke.StrokeTokenizer) (a b : list N),
     Stroke.text_to_strokes self [] = [] ∧
     Stroke.text_to_strokes self (a ++ b)
       = Stroke.text_to_strokes self a ++ Stroke.text_to_strokes self b) ∧
  (∀ (self : ZhText.StrokeTokenizer) (a b : list N),
     ZhText.text_to_strokes self [] = [] ∧
     ZhText.text_to_strokes self (a ++ b)
       = ZhText.text_to_strokes self a ++ ZhText.text_to_strokes self b).
Proof.
  split; intros self a b; (split; [reflexivity|]).
  - rewrite !stroke_text_to_strokes. apply bind_app.
  - rewrite !zhtext_text_to_strokes. apply bind_app.
Qed.

(** ** Lengths and limits *)

(** X21.  Without truncation and without padding the phonetic tokenizer
    returns 2 + 3k ids for k retained entries, and 3 ids when no entry is
    retained; the mask is as long. *)
Theorem pinyin_call_length (unicode_digit : N → bool)
    (pinyin : list N → list (list (list N))) (ml : Z) (text : list N)
    (mla : option Z) (padding : list N) :
  padding ≠ py "max_length" →
  ∃ tk ids mask,
    Pinyin.__init__ ml = Ok tk ∧
    Pinyin.__call__ unicode_digit pinyin tk text mla padding false
      = Ok {| input_ids := T2 [ids]; attention_mask := T2 [mask] |} ∧
    length ids = match length (PinyinSpec.retained (pinyin text)) with
                 | 0 => 3
                 | k => 2 + 3 * k
                 end ∧
    length mask = length ids.
Proof.
  intros Hpad.
  destruct (pinyin_call_general unicode_digit pinyin ml _ text mla padding false
              (pinyin_init ml)) as (ids & kept & k & Henc & -> & Hk & Hcall).
  rewrite bool_decide_eq_false_2 in Hk by exact Hpad. subst k.
  eexists. eexists _, _. split; [apply pinyin_init|]. split; [exact Hcall|].
  clear Hcall. unfold Pinyin.encode in Henc.
  rewrite (encode_syllables_ok unicode_digit ml _ _ (pinyin_init ml)) in Henc.
  pose proof (bind_length_3 (PinyinSpec.entry_ids unicode_digit
                {| Pinyin.max_length := ml; Pinyin.token2id := Pinyin.build_token2id;
                   Pinyin.id2token := invert Pinyin.build_token2id;
                   Pinyin.pad_token_id := 0 |})
                (PinyinSpec.retained (pinyin text))
                (entry_ids_length unicode_digit _)) as Hlen.
  injection Henc as Henc. rewrite !length_app, !length_replicate. cbn [length].
  split; [|lia]. rewrite <- Henc.
  destruct (PinyinSpec.retained (pinyin text)) as [|syl kept].
  - cbn. lia.
  - destruct (_ ≫= _) as [|i l]; cbn [length] in *; lia.
Qed.

Lemma pinyin_call_length_witness :
  ∃ tk ids mask,
    Pinyin.__init__ 128 = Ok tk ∧
    Pinyin.__call__ (λ _, false) (λ _, [[py "ma1"]; [py " "]]) tk [] None (py "longest") false
      = Ok {| input_ids := T2 [ids]; attention_mask := T2 [mask] |} ∧
    length ids = 5.
Proof.
  destruct (pinyin_call_length (λ _, false) (λ _, [[py "ma1"]; [py " "]]) 128 [] None
              (py "longest")) as (tk & ids & mask & Hinit & Hcall & Hlen & _).
  - vm_compute. discriminate.
  - exists tk, ids, mask. split; [exact Hinit|]. split; [exact Hcall|]. exact Hlen.
Defined.

(** X22.  A length limit of 0: the phonetic tokenizer and zh2text.py read
    [max_length=0] as no argument and use the limit of the tokenizer, while
    stroke_tokenizer.py takes it as the limit and, with truncation, returns
    an empty row of ids and an empty mask. *)
Theorem zero_limit (ml : Z) (c2s : gmap (list N) (list N)) (text : list N) :
  (∀ (unicode_digit : N → bool) (pinyin : list N → list (list (list N)))
     (tk : Pinyin.PinyinTokenizer) (padding : list N) (truncation : bool),
     Pinyin.__call__ unicode_digit pinyin tk text (Some 0%Z) padding truncation
       = Pinyin.__call__ unicode_digit pinyin tk text None padding truncation) ∧
  (∀ (tk : ZhText.StrokeTokenizer) (padding : list N) (truncation : bool)
     (rt : option (list N)),
     ZhText.__call__ tk text (Some 0%Z) padding truncation rt
       = ZhText.__call__ tk text None padding truncation rt) ∧
  (∀ (rt : option (list N)) (padding : bool),
     ∃ tk,
       Stroke.new ml c2s = Ok tk ∧
       Stroke.__call__ tk (Stroke.Text text) rt padding true (Some 0%Z)
         = Ok {| input_ids := T2 [[]]; attention_mask := T2 [[]] |}).
Proof.
  split; [reflexivity|]. split; [reflexivity|]. intros rt padding.
  destruct (stroke_call_single_general ml c2s _ text rt padding true (Some 0%Z)
              (stroke_new ml c2s)) as (kept & Hkept & Hcall).
  eexists. split; [apply stroke_new|]. rewrite Hcall.
  assert (kept = []) as ->; [|reflexivity].
  subst kept. cbn [andb default from_option id].
  unfold GraphemicSpec.wrapped_ids. rewrite !length_app. cbn [length].
  destruct (Z.ltb_spec 0 (Z.of_nat (1 + (length (text ≫= GraphemicSpec.char_ids c2s
              (Stroke.build_stroke2id c2s)) + 1)))); [|lia].
  reflexivity.
Qed.
